(** * SmartQL: the ABI struct resolver of [eosio_abi_to_graphql_ast.mjs]

    A shallow embedding of [handleBaseFields], [handleStructs] and
    [eosio_abi_to_graphql_ast], and the properties of the resolver that
    the specification states about them; then of [Wrap] and
    [get_graphql_fields_from_AST], with further properties of both parts.

    Modelling conventions.
    - JavaScript strings are [string]s; the five marker characters are
      ASCII, so deleting or finding them is the same on either encoding.
    - A JavaScript object with optional properties is a record whose
      optional properties have an [option] type ([None] is [undefined]).
    - A thrown exception is a [Throw] completion.  The recursion of
      [handleBaseFields] is written with no bound in the source; the
      embedding threads the number of call frames the engine still has,
      and exhausting them is the engine's [RangeError].
    - The array [abi.structs] lives in a store: [new_structs] is a second
      name for the same array, and [push] writes through it.
    - An object used as a dictionary is a finite map from its own
      property names.  JavaScript answers a read of a name that the
      object does not own from [Object.prototype] for the names of
      [prototype_names], and an assignment to [__proto__] adds no
      property: the statements on the object flag of a descriptor, on
      the set of keys of an object and on the caches of
      [get_graphql_fields_from_AST] carry a hypothesis on the names
      involved ([prototype_name], [adds_property], [ordinary_types]). *)

From stdpp Require Import gmap strings list fin_maps.
From Stdlib Require Import Ascii.

Local Open Scope string_scope.
Local Open Scope list_scope.

(** ** Completions *)

Inductive error := TypeError | RangeError.

Inductive completion (A : Type) :=
  | Normal (a : A)
  | Throw (e : error).
Arguments Normal {A} a.
Arguments Throw {A} e.

Definition cbind {A B} (c : completion A) (k : A → completion B) : completion B :=
  match c with
  | Normal a => k a
  | Throw e => Throw e
  end.

Definition cmap {A B} (f : A → B) (c : completion A) : completion B :=
  cbind c (λ a, Normal (f a)).

Definition returns {A} (c : completion A) : bool :=
  match c with Normal _ => true | Throw _ => false end.

Definition value_of {A} (c : completion A) : option A :=
  match c with Normal a => Some a | Throw _ => None end.

#[global] Instance completion_ret : MRet completion := @Normal.
#[global] Instance completion_bind : MBind completion := λ A B k c, cbind c k.
#[global] Instance completion_fmap : FMap completion := @cmap.

(** ** The ABI document *)

Module Field.
Record t := mk { name : string; type : string }.
End Field.

Module Struct.
(** [base] is [""] or absent for a struct with no base; [fields] is
    absent only on the copy made for an alias whose target is not found. *)
Record t := mk {
  name : string;
  base : option string;
  fields : option (list Field.t)
}.
End Struct.

Module Variant.
Record t := mk { name : string; types : list string }.
End Variant.

Module Alias.
Record t := mk { type : string; new_type_name : string }.
End Alias.

(** The store of struct arrays, and the document that points into it. *)
Definition loc := positive.
Abbreviation store := (gmap loc (list Struct.t)).

Module Abi.
Record t := mk {
  types : option (list Alias.t);
  variants : option (list Variant.t);
  structs : loc
}.
End Abi.

(** ** The resolved schema *)

Module Info.
Record t := mk {
  object : bool;
  optional : bool;
  list : bool;
  binary_ex : bool;
  variant : bool
}.
End Info.

Module AstField.
Record t := mk { name : string; type : string; _info : Info.t }.
End AstField.

Abbreviation schema := (gmap string (list AstField.t)).

(** ** Regular expressions of the field loop *)

(** [s.match(/c/gmu)] is not [null]. *)
Fixpoint has_char (c : ascii) (s : string) : bool :=
  match s with
  | EmptyString => false
  | String a r => bool_decide (a = c) || has_char c r
  end.

(** [s.match(/\[\]/gmu)] is not [null]. *)
Fixpoint has_brackets (s : string) : bool :=
  match s with
  | EmptyString => false
  | String a r =>
      match r with
      | String b _ =>
          (bool_decide (a = "["%char) && bool_decide (b = "]"%char))
          || has_brackets r
      | EmptyString => false
      end
  end.

(** The character class [[[\]?$@]]. *)
Definition is_marker (a : ascii) : bool :=
  bool_decide (a = "["%char) || bool_decide (a = "]"%char)
  || bool_decide (a = "?"%char) || bool_decide (a = "$"%char)
  || bool_decide (a = "@"%char).

(** [s.replace(/[[\]?$@]/gmu, "")]. *)
Fixpoint strip_markers (s : string) : string :=
  match s with
  | EmptyString => EmptyString
  | String a r => if is_marker a then strip_markers r else String a (strip_markers r)
  end.

(** A JavaScript string is truthy when it is not empty; [undefined] is falsy. *)
Definition truthy (s : option string) : option string :=
  match s with
  | Some EmptyString => None
  | Some b => Some b
  | None => None
  end.

(** [structs.find(({ name }) => name == base)] *)
Definition find_struct (base : string) (structs : list Struct.t) : option Struct.t :=
  List.find (λ s, bool_decide (Struct.name s = base)) structs.

(** ** Names that [Object.prototype] answers to *)

(** The string-keyed properties of [Object.prototype].  On an object made
    by [{}] a read [obj[n]] of one of these names is truthy although [obj]
    has no property [n] of its own. *)
Definition prototype_names : list string :=
  [ "constructor"; "__defineGetter__"; "__defineSetter__"; "hasOwnProperty";
    "__lookupGetter__"; "__lookupSetter__"; "isPrototypeOf";
    "propertyIsEnumerable"; "toString"; "valueOf"; "__proto__";
    "toLocaleString" ].

Definition prototype_name (n : string) : bool :=
  bool_decide (n ∈ prototype_names).

(** An assignment [obj[n] = v] adds the property [n] to [obj], unless [n]
    is [__proto__], the one name of [Object.prototype] with a setter. *)
Definition adds_property (n : string) : bool :=
  negb (bool_decide (n = "__proto__")).

(** ** [handleBaseFields] *)

Fixpoint handleBaseFields (frames : nat) (base : string) (structs : list Struct.t)
  : completion (list Field.t) :=
  match frames with
  | O => Throw RangeError
  | S frames' =>
      match find_struct base structs with
      | None => Throw TypeError
      | Some base_struct =>
          inherited ←
            match truthy (Struct.base base_struct) with
            | Some nested_base => handleBaseFields frames' nested_base structs
            | None => Normal []
            end;
          match Struct.fields base_struct with
          | Some fields => Normal (inherited ++ fields)
          | None => Throw TypeError
          end
      end
  end.

(** ** [handleStructs] *)

Section Registry.
(** [eosio_types.mjs] is imported by the resolver and is not part of the
    sources at hand: the table is a parameter.  Its values are GraphQL
    type objects, so the read [eosio_types[type]] of a name that is not
    one of [prototype_names] is truthy exactly on the keys of the table. *)
Context {codec : Type} (eosio_types : gmap string codec).

Definition is_primitive (type : string) : bool :=
  match eosio_types !! type with Some _ => true | None => false end.

(** The body of the loop over [fields_with_base_fields]. *)
Definition field_ast (field : Field.t) : AstField.t :=
  let optional := has_char "$" (Field.type field) || has_char "?" (Field.type field) in
  let binary_ex := has_char "$" (Field.type field) in
  let variant := has_char "@" (Field.type field) in
  let list := has_brackets (Field.type field) in
  let type := strip_markers (Field.type field) in
  let object := negb (is_primitive type) in
  AstField.mk (Field.name field) type (Info.mk object optional list binary_ex variant).

(** [fields_with_base_fields] of one entry of the struct list. *)
Definition fields_with_base_fields (frames : nat) (structs : list Struct.t)
    (struct : Struct.t) : completion (list Field.t) :=
  match truthy (Struct.base struct) with
  | Some base =>
      inherited ← handleBaseFields frames base structs;
      match Struct.fields struct with
      | Some fields => Normal (inherited ++ fields)
      | None => Throw TypeError
      end
  | None =>
      match Struct.fields struct with
      | Some fields => Normal fields
      | None => Throw TypeError
      end
  end.

(** [ast_fields] of one entry of the struct list. *)
Definition ast_fields (frames : nat) (structs : list Struct.t)
    (struct : Struct.t) : completion (list AstField.t) :=
  map field_ast <$> fields_with_base_fields frames structs struct.

(** The loop [for (const struct of structs)], started on [todo] with the
    object [graphql_ast_structs] built so far.  The map says what a read
    [graphql_ast_structs[name]] gives back after the assignments; every
    name but [__proto__] is then a property of the object as well
    ([adds_property]). *)
Fixpoint handleStructs_loop (frames : nat) (structs todo : list Struct.t)
    (graphql_ast_structs : schema) : completion schema :=
  match todo with
  | [] => Normal graphql_ast_structs
  | struct :: rest =>
      fs ← ast_fields frames structs struct;
      handleStructs_loop frames structs rest
        (<[Struct.name struct := fs]> graphql_ast_structs)
  end.

Definition handleStructs (frames : nat) (structs : list Struct.t) : completion schema :=
  handleStructs_loop frames structs structs ∅.
End Registry.

(** ** [eosio_abi_to_graphql_ast] *)

(** Statements that read and write the store and may throw. *)
Definition M (A : Type) : Type := store → store * completion A.

Definition run_bind {A B} (k : A → M B) (m : M A) : M B :=
  λ h, match m h with
       | (h', Normal a) => k a h'
       | (h', Throw e) => (h', Throw e)
       end.

#[global] Instance M_ret : MRet M := λ A a h, (h, Normal a).
#[global] Instance M_bind : MBind M := @run_bind.

(** Evaluating an expression that does not touch the store. *)
Definition lift {A} (c : completion A) : M A := λ h, (h, c).

(** Reading the array behind a reference; [undefined] has no properties. *)
Definition read (l : loc) : M (list Struct.t) :=
  λ h, match h !! l with
       | Some a => (h, Normal a)
       | None => (h, Throw TypeError)
       end.

(** [a.push(x)] on the array behind [l]. *)
Definition push (l : loc) (x : Struct.t) : M unit :=
  λ h, match h !! l with
       | Some a => (<[l := a ++ [x]]> h, Normal ())
       | None => (h, Throw TypeError)
       end.

(** [for (const x of xs) body]. *)
Fixpoint for_of {A} (xs : list A) (body : A → M unit) : M unit :=
  match xs with
  | [] => mret ()
  | x :: rest => _ ← body x; for_of rest body
  end.

(** The object pushed for a variant. *)
Definition variant_struct (v : Variant.t) : Struct.t :=
  Struct.mk (Variant.name v) (Some "")
    (Some (map (λ item, Field.mk item (item +:+ "$@")) (Variant.types v))).

(** [{ ...new_structs.find((x) => x.name == real_type), name: new_type_name }];
    spreading [undefined] adds no property. *)
Definition alias_struct (new_structs : list Struct.t) (a : Alias.t) : Struct.t :=
  match find_struct (Alias.type a) new_structs with
  | Some x => Struct.mk (Alias.new_type_name a) (Struct.base x) (Struct.fields x)
  | None => Struct.mk (Alias.new_type_name a) None None
  end.

Section Resolver.
Context {codec : Type} (eosio_types : gmap string codec).

(** [frames] bounds the nesting of [handleBaseFields] only. *)
Definition eosio_abi_to_graphql_ast (frames : nat) (abi : Abi.t) : M schema :=
  let new_structs := Abi.structs abi in
  _ ← match Abi.variants abi with
      | Some variants =>
          for_of variants (λ v, push new_structs (variant_struct v))
      | None => mret ()
      end;
  _ ← match Abi.types abi with
      | Some types =>
          for_of types (λ a,
            current ← read new_structs;
            push new_structs (alias_struct current a))
      | None => mret ()
      end;
  working ← read new_structs;
  lift (handleStructs eosio_types frames working).
End Resolver.

(** ** The struct list that reaches [handleStructs] *)

Definition push_alias (new_structs : list Struct.t) (a : Alias.t) : list Struct.t :=
  new_structs ++ [alias_struct new_structs a].

Definition working_structs (abi : Abi.t) (declared : list Struct.t) : list Struct.t :=
  fold_left push_alias (default [] (Abi.types abi))
    (declared ++ map variant_struct (default [] (Abi.variants abi))).

(** ** A registry for the examples *)

(** Modelled from the spec: the keys of the Primitive Type Registry of
    [eosio_types.mjs], which is not among the sources (integers of various
    widths, boolean, name, asset, symbol, public key, signature, checksum
    variants, time types, bytes, string). *)
Definition primitive_names : list string :=
  [ "bool"; "int8"; "uint8"; "int16"; "uint16"; "int32"; "uint32"; "int64";
    "uint64"; "int128"; "uint128"; "varint32"; "varuint32"; "name"; "asset";
    "symbol"; "symbol_code"; "public_key"; "signature"; "checksum160";
    "checksum256"; "checksum512"; "time_point"; "time_point_sec";
    "block_timestamp_type"; "bytes"; "string" ].

Definition sample_types : gmap string unit :=
  list_to_map (map (λ n, (n, ())) primitive_names).

(** The document of the examples keeps its struct array at this address. *)
Definition at_structs : loc := 1%positive.

Definition document (types : list Alias.t) (variants : list Variant.t) : Abi.t :=
  Abi.mk (Some types) (Some variants) at_structs.

Definition holding (declared : list Struct.t) : store := {[ at_structs := declared ]}.

(** ** [Wrap] and [get_graphql_fields_from_AST] *)

(** The types that the GraphQL library builds are the records of what
    their constructors are given; the checks that the library makes on its
    arguments are its own and are not part of the embedding.  Two types
    and one resolver are imported from modules that are not among the
    sources; they are constants here. *)
Inductive imported := authorization_type | query_argument_fields.

(** [query_resolver] is the imported [resolve]; [field_resolver] is the
    closure that [buildQGL] makes for a table field, with the [type] and
    [$info] it captures. *)
Inductive resolver :=
  | query_resolver
  | field_resolver (type : string) (_info : Info.t).

Module FieldConfig.
Record t (T : Type) := mk {
  type : T;
  resolve : option resolver;
  description : option string
}.
Arguments mk {T} type resolve description.
Arguments type {T} t.
Arguments resolve {T} t.
Arguments description {T} t.
End FieldConfig.

#[local] Set Warnings "-register-all".
Inductive gql_type (codec : Type) :=
  | registry_value (v : option codec)
  | imported_type (i : imported)
  | GraphQLObjectType (name : string)
      (fields : gmap string (FieldConfig.t (gql_type codec)))
  | GraphQLInputObjectType (name : string) (description : option string)
      (fields : gmap string (FieldConfig.t (gql_type codec)))
  | GraphQLList (ofType : gql_type codec)
  | GraphQLNonNull (ofType : gql_type codec).
#[local] Set Warnings "+register-all".
Arguments registry_value {codec} v.
Arguments imported_type {codec} i.
Arguments GraphQLObjectType {codec} name fields.
Arguments GraphQLInputObjectType {codec} name description fields.
Arguments GraphQLList {codec} ofType.
Arguments GraphQLNonNull {codec} ofType.

Abbreviation field_map codec := (gmap string (FieldConfig.t (gql_type codec))).
Abbreviation type_cache codec := (gmap string (gql_type codec)).

(** [Wrap(type, { optional, list })] *)
Definition Wrap {codec : Type} (type : gql_type codec) (info : Info.t) : gql_type codec :=
  let gql_type := type in
  let gql_type := if Info.list info then GraphQLList gql_type else gql_type in
  if Info.optional info then gql_type else GraphQLNonNull gql_type.

(** [s.replace(/\./gmu, "_")] *)
Fixpoint replace_dots (s : string) : string :=
  match s with
  | EmptyString => EmptyString
  | String a r =>
      String (if bool_decide (a = "."%char) then "_"%char else a) (replace_dots r)
  end.

Module Table.
Record t := mk { name : string; type : string }.
End Table.

Module Action.
Record t := mk { name : string; type : string; ricardian_contract : option string }.
End Action.

Module QueryField.
Record t (codec : Type) := mk {
  type : gql_type codec;
  args : gmap string (string * gql_type codec);
  resolve : resolver
}.
Arguments mk {codec} type args resolve.
Arguments type {codec} t.
Arguments args {codec} t.
Arguments resolve {codec} t.
End QueryField.

Module MutationField.
Record t (codec : Type) := mk { type : gql_type codec }.
Arguments mk {codec} type.
Arguments type {codec} t.
End MutationField.

Module Fields.
Record t (codec : Type) := mk {
  query_fields : gmap string (QueryField.t codec);
  mutation_fields : gmap string (MutationField.t codec)
}.
Arguments mk {codec} query_fields mutation_fields.
Arguments query_fields {codec} t.
Arguments mutation_fields {codec} t.
End Fields.

Section Builder.
Context {codec : Type} (eosio_types : gmap string codec) (AST : schema).

(** The two closures named [buildQGL] differ in the type they construct
    for a field that is an object and in the config they make for a
    field: these are [object_type] and [field_config]. *)
Context (object_type : string → field_map codec → gql_type codec).
Context (field_config : AstField.t → gql_type codec → FieldConfig.t (gql_type codec)).

(** The loop of [buildQGL] over [fields]; [build] is [buildQGL] itself,
    called on [AST[type]] for an object type that [TYPES] does not have.
    The test [!TYPES[type]] is the lookup of the key [type]: the types
    are those of [ordinary_types]. *)
Fixpoint buildQGL_loop
    (build : option (list AstField.t) → type_cache codec
             → type_cache codec * completion (field_map codec))
    (fields : list AstField.t) (acc : field_map codec) (TYPES : type_cache codec)
  : type_cache codec * completion (field_map codec) :=
  match fields with
  | [] => (TYPES, Normal acc)
  | field :: rest =>
      if Info.object (AstField._info field) then
        match TYPES !! AstField.type field with
        | Some cached =>
            buildQGL_loop build rest
              (<[AstField.name field :=
                   field_config field (Wrap cached (AstField._info field))]> acc)
              TYPES
        | None =>
            match build (AST !! AstField.type field) TYPES with
            | (TYPES', Normal nested) =>
                let made := object_type (AstField.type field) nested in
                buildQGL_loop build rest
                  (<[AstField.name field :=
                       field_config field (Wrap made (AstField._info field))]> acc)
                  (<[AstField.type field := made]> TYPES')
            | (TYPES', Throw e) => (TYPES', Throw e)
            end
        end
      else
        buildQGL_loop build rest
          (<[AstField.name field :=
               field_config field
                 (Wrap (registry_value (eosio_types !! AstField.type field))
                    (AstField._info field))]> acc)
          TYPES
  end.

(** [buildQGL(fields)], with [acc] at its default; [undefined] is not
    iterable. *)
Fixpoint buildQGL (frames : nat) (fields : option (list AstField.t))
    (TYPES : type_cache codec) : type_cache codec * completion (field_map codec) :=
  match frames with
  | O => (TYPES, Throw RangeError)
  | S frames' =>
      match fields with
      | Some fields => buildQGL_loop (buildQGL frames') fields ∅ TYPES
      | None => (TYPES, Throw TypeError)
      end
  end.
End Builder.

Section GraphqlFields.
Context {codec : Type} (eosio_types : gmap string codec).

(** The three regular-expression replacements made on a ricardian
    contract are kept as one function, which no statement looks into. *)
Context (plain_text : string → string).

Definition query_field_config (field : AstField.t) (type : gql_type codec)
  : FieldConfig.t (gql_type codec) :=
  FieldConfig.mk type
    (Some (field_resolver (AstField.type field) (AstField._info field))) None.

Definition mutation_field_config (field : AstField.t) (type : gql_type codec)
  : FieldConfig.t (gql_type codec) :=
  FieldConfig.mk type None None.

Definition authorization_field : FieldConfig.t (gql_type codec) :=
  FieldConfig.mk (GraphQLList (GraphQLNonNull (imported_type authorization_type)))
    None (Some "Authorization to sign the transaction").

(** The loop over [tables].  The test [!queryTypes[table_type]] is the
    lookup of the key, and the assignment [query_fields[table_name] = ...]
    the insertion of one: the types are those of [ordinary_types], and
    the statements on the keys of [query_fields] are on names that
    [adds_property] accepts. *)
Fixpoint tables_loop (frames : nat) (AST : schema) (gql_account_name : string)
    (tables : list Table.t) (GQL_TYPES : type_cache codec)
    (queryTypes query_fields : gmap string (QueryField.t codec))
  : completion (gmap string (QueryField.t codec)) :=
  match tables with
  | [] => Normal query_fields
  | table :: rest =>
      let table_name := replace_dots (Table.name table) in
      let table_type := Table.type table in
      let table_fields := AST !! table_type in
      match queryTypes !! table_type with
      | Some made =>
          tables_loop frames AST gql_account_name rest GQL_TYPES queryTypes
            (<[table_name := made]> query_fields)
      | None =>
          match buildQGL eosio_types AST
                  (λ type, GraphQLObjectType (gql_account_name +:+ type))
                  query_field_config frames table_fields GQL_TYPES with
          | (GQL_TYPES', Normal fields) =>
              let made :=
                QueryField.mk
                  (GraphQLList
                     (GraphQLObjectType (gql_account_name +:+ table_type +:+ "_query")
                        fields))
                  {[ "arg" := ("argument_type", imported_type query_argument_fields) ]}
                  query_resolver in
              tables_loop frames AST gql_account_name rest GQL_TYPES'
                (<[table_type := made]> queryTypes)
                (<[table_name := made]> query_fields)
          | (_, Throw e) => Throw e
          end
      end
  end.

(** The loop over [actions], with [mutationTypes] and [mutation_fields]
    read and assigned as [queryTypes] and [query_fields] are. *)
Fixpoint actions_loop (frames : nat) (AST : schema) (gql_account_name : string)
    (actions : list Action.t) (GQL_MTYPES : type_cache codec)
    (mutationTypes mutation_fields : gmap string (MutationField.t codec))
  : completion (gmap string (MutationField.t codec)) :=
  match actions with
  | [] => Normal mutation_fields
  | action :: rest =>
      let action_name := replace_dots (Action.name action) in
      let action_type := Action.type action in
      let ricardian_contract := default "" (Action.ricardian_contract action) in
      let action_fields := AST !! action_type in
      match mutationTypes !! action_type with
      | Some made =>
          actions_loop frames AST gql_account_name rest GQL_MTYPES mutationTypes
            (<[action_name := made]> mutation_fields)
      | None =>
          match buildQGL eosio_types AST
                  (λ type, GraphQLInputObjectType (gql_account_name +:+ "input_" +:+ type) None)
                  mutation_field_config frames action_fields GQL_MTYPES with
          | (GQL_MTYPES', Normal fields) =>
              let made :=
                MutationField.mk
                  (GraphQLInputObjectType (gql_account_name +:+ action_type)
                     (Some (plain_text ricardian_contract))
                     (<["authorization" := authorization_field]> fields)) in
              actions_loop frames AST gql_account_name rest GQL_MTYPES'
                (<[action_type := made]> mutationTypes)
                (<[action_name := made]> mutation_fields)
          | (_, Throw e) => Throw e
          end
      end
  end.

(** [get_graphql_fields_from_AST(AST, ABI, account_name)], on the
    [tables] and [actions] of [ABI]. *)
Definition get_graphql_fields_from_AST (frames : nat) (AST : schema)
    (tables : option (list Table.t)) (actions : option (list Action.t))
    (account_name : string) : completion (Fields.t codec) :=
  let gql_account_name := replace_dots account_name +:+ "_" in
  match tables with
  | None => Throw TypeError
  | Some tables =>
      query_fields ← tables_loop frames AST gql_account_name tables ∅ ∅ ∅;
      match actions with
      | None => Throw TypeError
      | Some actions =>
          mutation_fields ← actions_loop frames AST gql_account_name actions ∅ ∅ ∅;
          Normal (Fields.mk query_fields mutation_fields)
      end
  end.
End GraphqlFields.

(** ** Vocabulary of the statements *)

(** [sub] occurs in [s]. *)
Definition contains (sub s : string) : Prop :=
  ∃ pre post, s = pre +:+ sub +:+ post.

(** A type string made of marker characters only. *)
Fixpoint only_markers (s : string) : bool :=
  match s with
  | EmptyString => true
  | String a r => is_marker a && only_markers r
  end.

(** The name [handleBaseFields] is called with next, when it is called on
    [base]: the base of the struct that [base] names. *)
Definition next_base (structs : list Struct.t) (base : string) : option string :=
  s ← find_struct base structs; truthy (Struct.base s).

(** The name on top of the resolution stack after [n] nested calls. *)
Fixpoint chain_at (structs : list Struct.t) (n : nat) (base : string) : option string :=
  match n with
  | O => Some base
  | S n' => b ← next_base structs base; chain_at structs n' b
  end.

(** The structs of a base chain that ends, within [n] steps, at a struct
    with no base, outermost ancestor first; [None] when a name is not
    declared or the chain is longer. *)
Fixpoint base_chain (n : nat) (structs : list Struct.t) (base : string)
  : option (list Struct.t) :=
  match n with
  | O => None
  | S n' =>
      s ← find_struct base structs;
      match truthy (Struct.base s) with
      | Some nested_base => (λ l, l ++ [s]) <$> base_chain n' structs nested_base
      | None => Some [s]
      end
  end.

Definition has_fields (s : Struct.t) : bool :=
  match Struct.fields s with Some _ => true | None => false end.

(** The declared fields of a chain, in the order of the chain. *)
Definition declared_fields (chain : list Struct.t) : list Field.t :=
  List.concat (map (λ s, default [] (Struct.fields s)) chain).

(** The last entry of a struct list that carries a name. *)
Definition last_named (name : string) (structs : list Struct.t) : option Struct.t :=
  find_struct name (reverse structs).

(** ** Decidable forms of the side conditions *)

#[global] Instance field_eq_dec : EqDecision Field.t.
Proof. solve_decision. Defined.

#[global] Instance struct_eq_dec : EqDecision Struct.t.
Proof. solve_decision. Defined.

(** Two entries with the same base and the same field list. *)
Definition same_content (s1 s2 : Struct.t) : bool :=
  bool_decide (Struct.base s1 = Struct.base s2 ∧ Struct.fields s1 = Struct.fields s2).

Definition named (n : string) (s : Struct.t) : bool :=
  bool_decide (Struct.name s = n).





(** An entry that declares a field list and whose base chain, if it has a
    base, ends within the struct list at structs that declare theirs. *)
Definition entry_resolves (structs : list Struct.t) (s : Struct.t) : bool :=
  has_fields s
  && match truthy (Struct.base s) with
     | Some b =>
         match base_chain (length structs) structs b with
         | Some chain => forallb has_fields chain
         | None => false
         end
     | None => true
     end.

Definition well_formed (structs : list Struct.t) : bool :=
  forallb (entry_resolves structs) structs.

(** The names on the resolution stack during the first calls of
    [handleBaseFields] from [base], one more than there are structs. *)
Definition visited_names (structs : list Struct.t) (base : string) : list string :=
  omap (λ i, chain_at structs i base) (seq 0 (S (length structs))).

(** No base chain of the list visits a name twice. *)
Definition acyclic (structs : list Struct.t) : bool :=
  forallb (λ s, match truthy (Struct.base s) with
                | Some b => bool_decide (NoDup (visited_names structs b))
                | None => true
                end) structs.

(** [T] is the type of a field of the entry of [S] that is an object. *)
Definition object_field (AST : schema) (S T : string) : Prop :=
  ∃ fs f, AST !! S = Some fs ∧ f ∈ fs
          ∧ Info.object (AstField._info f) = true ∧ AstField.type f = T.

(** The types that building the fields of [roots] comes to. *)
Inductive reachable (AST : schema) (roots : list string) : string → Prop :=
  | reachable_root T : T ∈ roots → reachable AST roots T
  | reachable_field S T :
      reachable AST roots S → object_field AST S T → reachable AST roots T.

(** Every type reached from [roots] has an entry, and no type is reached
    from itself: some measure goes down along the object fields. *)
Definition well_founded_from (AST : schema) (roots : list string) : Prop :=
  (∀ T, reachable AST roots T → is_Some (AST !! T))
  ∧ ∃ rank : string → nat,
      ∀ S T, reachable AST roots S → object_field AST S T → rank T < rank S.

(** A type that is neither a list nor a non-null wrapper. *)
Definition named_type {codec : Type} (t : gql_type codec) : bool :=
  match t with
  | GraphQLList _ | GraphQLNonNull _ => false
  | _ => true
  end.

(** What a GraphQL type says of nullability and lists. *)
Definition nullable {codec : Type} (t : gql_type codec) : bool :=
  match t with GraphQLNonNull _ => false | _ => true end.

Definition nullable_part {codec : Type} (t : gql_type codec) : gql_type codec :=
  match t with GraphQLNonNull u => u | _ => t end.

Definition element_type {codec : Type} (t : gql_type codec) : option (gql_type codec) :=
  match nullable_part t with GraphQLList u => Some u | _ => None end.

(** ** Types that the caches can tell apart *)

(** The names under which the caches of [get_graphql_fields_from_AST] are
    read, [queryTypes] and [mutationTypes] by the type of a table or an
    action, [GQL_TYPES] and [GQL_MTYPES] by the type of a field, are none
    of them names of [Object.prototype]: the read [!cache[type]] then says
    whether the cache has the key.  The schema has no entry [__proto__]
    either: it is an object that [handleStructs] can have made by adding
    properties, with [Object.prototype] as its prototype. *)
Definition ordinary_types (AST : schema) (tables : list Table.t)
    (actions : list Action.t) : bool :=
  forallb (λ table, negb (prototype_name (Table.type table))) tables
  && forallb (λ action, negb (prototype_name (Action.type action))) actions
  && forallb (λ entry,
       adds_property entry.1
       && forallb (λ field, negb (prototype_name (AstField.type field))) entry.2)
       (map_to_list AST).

(** ** Invariants of the caches of [get_graphql_fields_from_AST] *)

Section CacheInvariants.
Context {codec : Type} (AST : schema).

(** Every type in the cache has an entry whose object fields are in the
    cache too, and were there before it. *)
Definition settled (TYPES : type_cache codec) : Prop :=
  ∃ rank : string → nat,
    ∀ U, U ∈ dom TYPES →
      ∃ fs, AST !! U = Some fs
            ∧ ∀ f, f ∈ fs → Info.object (AstField._info f) = true →
                AstField.type f ∈ dom TYPES ∧ rank (AstField.type f) < rank U.

Definition covered (fs : list AstField.t) (TYPES : type_cache codec) : Prop :=
  ∀ f, f ∈ fs → Info.object (AstField._info f) = true → AstField.type f ∈ dom TYPES.

Definition builds_settled
    (build : option (list AstField.t) → type_cache codec
             → type_cache codec * completion (field_map codec)) : Prop :=
  ∀ fields TYPES TYPES' made,
    build fields TYPES = (TYPES', Normal made) →
    settled TYPES →
    settled TYPES' ∧ dom TYPES ⊆ dom TYPES'
    ∧ ∃ fs, fields = Some fs ∧ covered fs TYPES'.

Definition cache_named (TYPES : type_cache codec) : Prop :=
  ∀ T t, TYPES !! T = Some t → named_type t = true.

Definition keeps_named
    (build : option (list AstField.t) → type_cache codec
             → type_cache codec * completion (field_map codec)) : Prop :=
  ∀ fields TYPES TYPES' made,
    build fields TYPES = (TYPES', Normal made) → cache_named TYPES → cache_named TYPES'.

(** A config made for a field named [n] of [fields]. *)
Definition config_of
    (field_config : AstField.t → gql_type codec → FieldConfig.t (gql_type codec))
    (fields : list AstField.t) (n : string)
    (cfg : FieldConfig.t (gql_type codec)) : Prop :=
  ∃ f base, f ∈ fields ∧ AstField.name f = n ∧ named_type base = true
            ∧ cfg = field_config f (Wrap base (AstField._info f)).

(** The query field made for a table of type [T]. *)
Definition query_field_of (account : string) (T : string) (q : QueryField.t codec) : Prop :=
  ∃ fs fields,
    AST !! T = Some fs
    ∧ q = QueryField.mk
            (GraphQLList (GraphQLObjectType (account +:+ T +:+ "_query") fields))
            {[ "arg" := ("argument_type", imported_type query_argument_fields) ]}
            query_resolver
    ∧ ∀ n, (is_Some (fields !! n) ↔ n ∈ AstField.name <$> fs)
           ∧ ∀ cfg, fields !! n = Some cfg → config_of query_field_config fs n cfg.

(** The mutation field made for an action of type [T]; its description
    comes from one of [actions]. *)
Definition mutation_field_of (plain_text : string → string) (account : string)
    (actions : list Action.t) (T : string) (m : MutationField.t codec) : Prop :=
  ∃ fs fields a,
    AST !! T = Some fs
    ∧ a ∈ actions ∧ Action.type a = T
    ∧ m = MutationField.mk
            (GraphQLInputObjectType (account +:+ T)
               (Some (plain_text (default "" (Action.ricardian_contract a))))
               (<["authorization" := authorization_field]> fields))
    ∧ ∀ n, (is_Some (fields !! n) ↔ n ∈ AstField.name <$> fs)
           ∧ ∀ cfg, fields !! n = Some cfg → config_of mutation_field_config fs n cfg.
End CacheInvariants.

(** ** Documents of the examples *)

(** [B] with no base, [C] with base [B]. *)
Definition B_then_C (a b : Field.t) : list Struct.t :=
  [ Struct.mk "B" (Some "") (Some [a]); Struct.mk "C" (Some "B") (Some [b]) ].

(** [A] inherits from [B] and [B] from [A]. *)
Definition cyclic_structs : list Struct.t :=
  [ Struct.mk "A" (Some "B") (Some [Field.mk "a" "name"]);
    Struct.mk "B" (Some "A") (Some [Field.mk "b" "name"]) ].

(** A field whose type is made of markers only. *)
Definition marker_struct : list Struct.t :=
  [ Struct.mk "s" (Some "") (Some [Field.mk "f" "[]?$@"]) ].

(** A field name declared twice, and a type that nothing declares. *)
Definition loose_struct : list Struct.t :=
  [ Struct.mk "account" (Some "")
      (Some [Field.mk "balance" "asset"; Field.mk "balance" "ghost"]) ].

(** A base that nothing declares. *)
Definition orphan_struct : list Struct.t :=
  [ Struct.mk "C" (Some "ghost") (Some [Field.mk "b" "name"]) ].

(** The name [A] declared twice, with different fields. *)
Definition twice_declared : list Struct.t :=
  [ Struct.mk "A" (Some "") (Some [Field.mk "x" "name"]);
    Struct.mk "A" (Some "") (Some [Field.mk "y" "string"]) ].

Definition name_or_asset : Variant.t := Variant.mk "v" ["name"; "asset"].

(** [C] inherits from [B], which inherits from [A]. *)
Definition three_levels : list Struct.t :=
  [ Struct.mk "A" (Some "") (Some [Field.mk "x" "name"]);
    Struct.mk "B" (Some "A") (Some [Field.mk "y" "asset"]);
    Struct.mk "C" (Some "B") (Some [Field.mk "z" "string"]) ].

(** A token contract: its structs, its schema, its tables and actions. *)
Definition token_structs : list Struct.t :=
  [ Struct.mk "account" (Some "") (Some [Field.mk "balance" "asset"]);
    Struct.mk "holder" (Some "")
      (Some [Field.mk "owner" "name"; Field.mk "accounts" "account[]";
             Field.mk "memo" "string$"]);
    Struct.mk "transfer" (Some "")
      (Some [Field.mk "from" "name"; Field.mk "to" "name";
             Field.mk "quantity" "asset"; Field.mk "authorization" "string"]) ].

Definition token_ast : schema :=
  default ∅ (value_of
    (eosio_abi_to_graphql_ast sample_types 1 (document [] []) (holding token_structs)).2).

Definition token_tables : list Table.t :=
  [ Table.mk "accounts" "account"; Table.mk "holders.v2" "holder" ].

Definition token_actions : list Action.t :=
  [ Action.mk "transfer" "transfer" (Some "Send tokens");
    Action.mk "pay.out" "transfer" None ].

(** The schema of [loose_struct], where [balance] has a type that nothing
    declares, and a schema with a struct that has a field of its own type. *)
Definition loose_ast : schema :=
  default ∅ (value_of
    (eosio_abi_to_graphql_ast sample_types 1 (document [] []) (holding loose_struct)).2).

Definition node_ast : schema :=
  default ∅ (value_of
    (eosio_abi_to_graphql_ast sample_types 1 (document [] [])
       (holding [Struct.mk "node" (Some "")
                   (Some [Field.mk "id" "uint64"; Field.mk "children" "node[]"])])).2).

(** [C] has the variant [v] as its base, and [U] is an alias of [T],
    itself an alias of [A]. *)
Definition borrowed_structs : list Struct.t :=
  [ Struct.mk "A" (Some "") (Some [Field.mk "x" "name"]);
    Struct.mk "C" (Some "v") (Some [Field.mk "b" "string"]) ].

Definition borrowed_document : Abi.t :=
  document [Alias.mk "A" "T"; Alias.mk "T" "U"] [name_or_asset].

(** * Properties *)

(** ** Strings *)

Lemma contains_cons a sub s : contains sub s → contains sub (String a s).
Proof. intros (pre & post & ->). by exists (String a pre), post. Qed.

Lemma has_char_contains c s : has_char c s = true ↔ contains (String c "") s.
Proof.
  split.
  - induction s as [|a r IH]; simpl; [done|].
    intros [Ha%bool_decide_eq_true | Hr]%orb_true_iff.
    + subst a. by exists "", r.
    + by apply contains_cons, IH.
  - intros (pre & post & ->).
    induction pre as [|a pre IH]; simpl.
    + by rewrite bool_decide_eq_true_2.
    + rewrite IH. apply orb_true_r.
Qed.

Lemma has_brackets_contains s : has_brackets s = true ↔ contains "[]" s.
Proof.
  split.
  - induction s as [|a r IH]; simpl; [done|].
    destruct r as [|b r']; [done|].
    intros [[Ha%bool_decide_eq_true Hb%bool_decide_eq_true]%andb_true_iff | Hr]%orb_true_iff.
    + subst a b. by exists "", r'.
    + by apply contains_cons, IH.
  - intros (pre & post & ->).
    induction pre as [|a pre IH]; [done|].
    change (String a pre +:+ "[]" +:+ post) with (String a (pre +:+ "[]" +:+ post)).
    simpl. destruct (pre +:+ "[]" +:+ post) as [|b t] eqn:E.
    + by destruct pre.
    + rewrite IH. apply orb_true_r.
Qed.

Lemma only_markers_strip s : only_markers s = true ↔ strip_markers s = "".
Proof.
  induction s as [|a r IH]; simpl; [done|].
  destruct (is_marker a); simpl; [done|]. split; discriminate.
Qed.

Lemma strip_markers_clean s c :
  is_marker c = true → has_char c (strip_markers s) = false.
Proof.
  intros Hc. induction s as [|a r IH]; simpl; [done|].
  destruct (is_marker a) eqn:Ha; simpl; [done|].
  rewrite IH, orb_false_r. apply bool_decide_eq_false. congruence.
Qed.

(** ** The type-grammar of a field (C1, C4) *)

Section FieldProperties.
Context {codec : Type} (eosio_types : gmap string codec).

Lemma is_primitive_key type :
  is_primitive eosio_types type = true ↔ is_Some (eosio_types !! type).
Proof.
  unfold is_primitive. destruct (eosio_types !! type) as [c|] eqn:E.
  - split; [by eexists|done].
  - split; [done|]. by intros [c Hc].
Qed.

(** C1, as the code has it: the descriptor of a field keeps its name and
    takes as base type the raw type string with every character among
    [[ ] ? $ @] deleted.  [list] holds iff the raw string contains [[]],
    [binary_ex] iff it contains [$], [variant] iff it contains [@].
    [optional] is not independent of the extension marker: it holds iff
    the raw string contains [?] or [$].  [object] is the negation of the
    read [eosio_types[type]]: for a base type that is not a name of
    [Object.prototype] it holds iff the base type is not a key of the
    registry. *)
Theorem field_ast_flags (field : Field.t) :
  let d := field_ast eosio_types field in
  let raw := Field.type field in
  AstField.name d = Field.name field
  ∧ AstField.type d = strip_markers raw
  ∧ (Info.list (AstField._info d) = true ↔ contains "[]" raw)
  ∧ (Info.optional (AstField._info d) = true ↔ contains "?" raw ∨ contains "$" raw)
  ∧ (Info.binary_ex (AstField._info d) = true ↔ contains "$" raw)
  ∧ (Info.variant (AstField._info d) = true ↔ contains "@" raw)
  ∧ (prototype_name (strip_markers raw) = false →
     (Info.object (AstField._info d) = true ↔ eosio_types !! strip_markers raw = None)).
Proof.
  simpl. split; [done|]. split; [done|].
  split; [apply has_brackets_contains|].
  split.
  { rewrite orb_true_iff, !has_char_contains. tauto. }
  split; [apply has_char_contains|].
  split; [apply has_char_contains|].
  intros _. unfold is_primitive. by destruct (eosio_types !! _).
Qed.
End FieldProperties.

Lemma field_ast_flags_witness :
  prototype_name (strip_markers "asset[]?") = false
  ∧ (Info.object (AstField._info (field_ast sample_types (Field.mk "balances" "asset[]?")))
     = true
     ↔ sample_types !! strip_markers "asset[]?" = None).
Proof.
  split; [reflexivity|].
  destruct (field_ast_flags sample_types (Field.mk "balances" "asset[]?"))
    as (_ & _ & _ & _ & _ & _ & Hobject).
  apply Hobject. reflexivity.
Defined.

(** C1, as stated, fails on an extension field: ["string$"] has no [?] and
    yet its descriptor is optional. *)
Lemma optional_without_question_mark :
  ¬ (Info.optional (AstField._info (field_ast sample_types (Field.mk "memo" "string$"))) = true
     ↔ contains "?" "string$").
Proof.
  intros [H _]. specialize (H eq_refl).
  apply has_char_contains in H. discriminate H.
Qed.

(** ** The store: what [eosio_abi_to_graphql_ast] leaves behind *)

Lemma for_of_push {A} (f : A → Struct.t) (l : loc) (xs : list A) (h : store)
    (cur : list Struct.t) :
  h !! l = Some cur →
  for_of xs (λ x, push l (f x)) h = (<[l := cur ++ map f xs]> h, Normal ()).
Proof.
  revert h cur. induction xs as [|x xs IH]; intros h cur Hl; simpl.
  - rewrite app_nil_r, insert_id by done. done.
  - unfold mbind, M_bind, run_bind, push at 1. rewrite Hl.
    rewrite (IH _ (cur ++ [f x])) by apply lookup_insert_eq.
    by rewrite insert_insert_eq, <- app_assoc.
Qed.

Lemma for_of_alias (l : loc) (ts : list Alias.t) (h : store) (cur : list Struct.t) :
  h !! l = Some cur →
  for_of ts (λ a, current ← read l; push l (alias_struct current a)) h
  = (<[l := fold_left push_alias ts cur]> h, Normal ()).
Proof.
  revert h cur. induction ts as [|a ts IH]; intros h cur Hl; simpl.
  - rewrite insert_id by done. done.
  - unfold mbind, M_bind, run_bind, read at 1, push at 1. rewrite Hl. simpl. rewrite Hl.
    rewrite (IH _ (push_alias cur a)) by apply lookup_insert_eq.
    by rewrite insert_insert_eq.
Qed.

Section ResolverProperties.
Context {codec : Type} (eosio_types : gmap string codec).

(** The resolver hands to [handleStructs] the caller's own array, grown
    by the variant structs and the alias copies. *)
Lemma resolve_eq frames abi (h : store) declared :
  h !! Abi.structs abi = Some declared →
  eosio_abi_to_graphql_ast eosio_types frames abi h
  = (<[Abi.structs abi := working_structs abi declared]> h,
     handleStructs eosio_types frames (working_structs abi declared)).
Proof.
  intros Hl. unfold eosio_abi_to_graphql_ast, working_structs.
  set (l := Abi.structs abi) in *.
  unfold mbind at 1, M_bind at 1, run_bind at 1.
  assert (∃ h1, (match Abi.variants abi with
                 | Some variants => for_of variants (λ v, push l (variant_struct v))
                 | None => mret ()
                 end) h = (h1, Normal ())
                ∧ h1 = <[l := declared ++ map variant_struct (default [] (Abi.variants abi))]> h)
    as (h1 & -> & Hh1).
  { destruct (Abi.variants abi) as [vs|]; simpl.
    - eexists. split; [by apply for_of_push|done].
    - exists h. split; [done|]. by rewrite app_nil_r, insert_id. }
  unfold mbind at 1, M_bind at 1, run_bind at 1.
  set (mid := declared ++ map variant_struct (default [] (Abi.variants abi))) in *.
  assert (h1 !! l = Some mid) as Hl1 by (subst h1; apply lookup_insert_eq).
  assert (∃ h2, (match Abi.types abi with
                 | Some types =>
                     for_of types (λ a, current ← read l; push l (alias_struct current a))
                 | None => mret ()
                 end) h1 = (h2, Normal ())
                ∧ h2 = <[l := fold_left push_alias (default [] (Abi.types abi)) mid]> h)
    as (h2 & -> & Hh2).
  { destruct (Abi.types abi) as [ts|]; simpl.
    - eexists. split; [by apply for_of_alias|]. subst h1. by rewrite insert_insert_eq.
    - exists h1. split; [done|]. done. }
  unfold mbind, M_bind, run_bind, read, lift.
  subst h2. by rewrite lookup_insert_eq.
Qed.

Lemma resolve_undefined frames abi (h : store) :
  h !! Abi.structs abi = None →
  eosio_abi_to_graphql_ast eosio_types frames abi h = (h, Throw TypeError).
Proof.
  intros Hl. unfold eosio_abi_to_graphql_ast.
  unfold mbind, M_bind, run_bind.
  destruct (Abi.variants abi) as [[|v vs]|]; simpl.
  2:{ unfold mbind, M_bind, run_bind, push. by rewrite Hl. }
  all: destruct (Abi.types abi) as [[|a ts]|]; simpl;
    unfold mbind, M_bind, run_bind, read, push; by rewrite ?Hl.
Qed.
End ResolverProperties.

(** ** The working struct list *)

Lemma map_fmap {A B} (f : A → B) (l : list A) : map f l = f <$> l.
Proof. done. Qed.

Lemma alias_struct_name new_structs a :
  Struct.name (alias_struct new_structs a) = Alias.new_type_name a.
Proof. unfold alias_struct. by destruct (find_struct _ _). Qed.

Lemma alias_struct_found new_structs a x :
  find_struct (Alias.type a) new_structs = Some x →
  Struct.base (alias_struct new_structs a) = Struct.base x
  ∧ Struct.fields (alias_struct new_structs a) = Struct.fields x.
Proof. unfold alias_struct. by intros ->. Qed.

Lemma fold_push_alias ts cur :
  ∃ copies, fold_left push_alias ts cur = cur ++ copies
            ∧ map Struct.name copies = map Alias.new_type_name ts.
Proof.
  revert cur. induction ts as [|a ts IH]; intros cur; simpl.
  - exists []. by rewrite app_nil_r.
  - destruct (IH (push_alias cur a)) as (copies & -> & Hn).
    exists (alias_struct cur a :: copies). unfold push_alias.
    rewrite <- app_assoc. split; [done|]. simpl. by rewrite alias_struct_name, Hn.
Qed.

Lemma find_struct_app n l1 l2 :
  find_struct n (l1 ++ l2)
  = match find_struct n l1 with Some s => Some s | None => find_struct n l2 end.
Proof.
  unfold find_struct. induction l1 as [|x l1 IH]; simpl; [done|].
  by destruct (bool_decide _).
Qed.

Lemma find_struct_Some n l s :
  find_struct n l = Some s → s ∈ l ∧ Struct.name s = n.
Proof.
  unfold find_struct. intros [Hin Hn]%find_some.
  split; [by apply list_elem_of_In|]. by apply bool_decide_eq_true in Hn.
Qed.

Lemma find_struct_None n l :
  find_struct n l = None ↔ n ∉ map Struct.name l.
Proof.
  unfold find_struct. induction l as [|x l IH]; simpl.
  - split; [intros _|done]. apply not_elem_of_nil.
  - rewrite not_elem_of_cons. destruct (bool_decide_reflect (Struct.name x = n)).
    + split; [done|]. intros [? _]. congruence.
    + rewrite IH. split; [intros ?; split; congruence|tauto].
Qed.

(** ** [handleBaseFields] on chains *)

Ltac unfold_bind :=
  unfold mbind, completion_bind, fmap, completion_fmap, cmap, mret,
    completion_ret, cbind in *.

Lemma next_base_Some structs b b' :
  next_base structs b = Some b' ↔
  ∃ s, find_struct b structs = Some s ∧ truthy (Struct.base s) = Some b'.
Proof. unfold next_base. apply bind_Some. Qed.

Lemma chain_at_add structs m n b :
  chain_at structs (m + n) b = chain_at structs m b ≫= chain_at structs n.
Proof.
  revert b. induction m as [|m IH]; intros b; simpl; [done|].
  destruct (next_base structs b) as [b'|]; simpl; [apply IH|done].
Qed.

Lemma handleBaseFields_step structs b b' :
  next_base structs b = Some b' →
  (∀ frames, handleBaseFields frames b' structs = Throw RangeError) →
  ∀ frames, handleBaseFields frames b structs = Throw RangeError.
Proof.
  intros (s & Hs & Hb)%next_base_Some Hrec [|frames]; simpl; [done|].
  rewrite Hs, Hb, Hrec. done.
Qed.

Lemma handleBaseFields_reach structs n b x :
  chain_at structs n b = Some x →
  (∀ frames, handleBaseFields frames x structs = Throw RangeError) →
  ∀ frames, handleBaseFields frames b structs = Throw RangeError.
Proof.
  revert b. induction n as [|n IH]; intros b; simpl.
  - by intros [= ->].
  - intros (b' & Hb' & Hn)%bind_Some Hx.
    eapply handleBaseFields_step; [done|]. by eapply IH.
Qed.

Lemma handleBaseFields_on_cycle structs k x :
  chain_at structs (S k) x = Some x →
  ∀ frames, handleBaseFields frames x structs = Throw RangeError.
Proof.
  intros Hk frames. revert x Hk.
  induction frames as [|frames IH]; intros x Hk; simpl; [done|].
  pose proof Hk as Hk'. simpl in Hk'.
  apply bind_Some in Hk' as (b' & Hb' & Hn).
  pose proof Hb' as (s & Hs & Hb)%next_base_Some.
  rewrite Hs, Hb, IH; [done|].
  replace (S k) with (k + 1) by lia.
  rewrite chain_at_add, Hn. simpl. by rewrite Hb'.
Qed.

(** A base chain that comes back to a name never returns: every number of
    frames is used up. *)
Lemma handleBaseFields_revisit structs b i j x :
  i < j →
  chain_at structs i b = Some x →
  chain_at structs j b = Some x →
  ∀ frames, handleBaseFields frames b structs = Throw RangeError.
Proof.
  intros Hij Hi Hj. eapply handleBaseFields_reach; [done|].
  apply (handleBaseFields_on_cycle structs (j - i - 1)).
  replace j with (i + S (j - i - 1)) in Hj by lia.
  by rewrite chain_at_add, Hi in Hj.
Qed.

Lemma handleBaseFields_undeclared structs b frames :
  find_struct b structs = None →
  returns (handleBaseFields frames b structs) = false.
Proof. intros Hb. destruct frames; simpl; [done|]. by rewrite Hb. Qed.

Lemma declared_fields_snoc chain s :
  declared_fields (chain ++ [s])
  = declared_fields chain ++ default [] (Struct.fields s).
Proof.
  unfold declared_fields. rewrite map_app, concat_app. simpl. by rewrite app_nil_r.
Qed.

(** A chain that ends is resolved as soon as the frames cover its length. *)
Lemma handleBaseFields_chain structs n b chain frames :
  base_chain n structs b = Some chain →
  forallb has_fields chain = true →
  (n ≤ frames)%nat →
  handleBaseFields frames b structs = Normal (declared_fields chain).
Proof.
  revert b chain frames. induction n as [|n IH]; intros b chain frames; simpl; [done|].
  intros (s & Hs & Hc)%bind_Some Hf Hle.
  destruct frames as [|frames]; [lia|]. simpl. rewrite Hs.
  destruct (truthy (Struct.base s)) as [nb|] eqn:Hb.
  - apply fmap_Some in Hc as (anc & Hanc & ->).
    rewrite forallb_app in Hf. apply andb_true_iff in Hf as [Hanc_f Hs_f].
    rewrite (IH _ _ frames Hanc Hanc_f) by lia. unfold_bind.
    rewrite declared_fields_snoc. simpl in Hs_f. unfold has_fields in Hs_f.
    by destruct (Struct.fields s).
  - injection Hc as <-. unfold_bind. simpl in Hf. unfold has_fields in Hf.
    unfold declared_fields. simpl. destruct (Struct.fields s); [|done].
    simpl. by rewrite app_nil_r.
Qed.

Lemma base_chain_suffix structs m n b c y :
  chain_at structs m b = Some y →
  base_chain n structs b = Some c →
  ∃ n' c', base_chain n' structs y = Some c' ∧ n' + m = n.
Proof.
  revert n b c. induction m as [|m IH]; intros n b c; simpl.
  - intros [= ->] Hc. exists n, c. split; [done|lia].
  - intros (b' & Hb' & Hm)%bind_Some Hc.
    destruct n as [|n]; [done|]. simpl in Hc.
    apply bind_Some in Hc as (s & Hs & Hc).
    apply next_base_Some in Hb' as (s' & Hs' & Hb'). simplify_eq.
    rewrite Hb' in Hc. apply fmap_Some in Hc as (anc & Hanc & _).
    destruct (IH _ _ _ Hm Hanc) as (n' & c' & Hc' & Hn').
    exists n', c'. split; [done|lia].
Qed.

Lemma base_chain_no_cycle structs n y c k :
  base_chain n structs y = Some c →
  chain_at structs (S k) y = Some y → False.
Proof.
  revert c. induction (lt_wf n) as [n _ IH]. intros c Hc Hk.
  destruct (base_chain_suffix _ _ _ _ _ _ Hk Hc) as (n' & c' & Hc' & Hn').
  eapply (IH n'); [lia|done..].
Qed.

(** A chain that comes back to a name does not end. *)
Lemma base_chain_revisit structs b i j x n :
  i < j →
  chain_at structs i b = Some x →
  chain_at structs j b = Some x →
  base_chain n structs b = None.
Proof.
  intros Hij Hi Hj.
  destruct (base_chain n structs b) as [chain|] eqn:Hc; [|done].
  exfalso.
  destruct (base_chain_suffix _ _ _ _ _ _ Hi Hc) as (n' & c' & Hc' & _).
  apply (base_chain_no_cycle structs n' x c' (j - i - 1) Hc').
  replace j with (i + S (j - i - 1)) in Hj by lia.
  by rewrite chain_at_add, Hi in Hj.
Qed.

Lemma chain_at_prefix structs i n b :
  (i ≤ n)%nat → is_Some (chain_at structs n b) → is_Some (chain_at structs i b).
Proof.
  intros Hle Hn. replace n with (i + (n - i)) in Hn by lia.
  rewrite chain_at_add in Hn. destruct (chain_at structs i b); [by eexists|].
  by destruct Hn.
Qed.

Lemma base_chain_continues structs n b :
  (∀ i x, chain_at structs i b = Some x → is_Some (find_struct x structs)) →
  base_chain n structs b = None →
  is_Some (chain_at structs n b).
Proof.
  revert b. induction n as [|n IH]; intros b Hdecl Hnone; [by eexists|].
  simpl in Hnone. destruct (Hdecl 0 b eq_refl) as [s Hs]. rewrite Hs in Hnone.
  simpl in Hnone. destruct (truthy (Struct.base s)) as [nb|] eqn:Hb; [|done].
  apply fmap_None in Hnone.
  assert (next_base structs b = Some nb) as Hnext.
  { apply next_base_Some. by exists s. }
  simpl. rewrite Hnext. simpl. apply IH; [|done].
  intros i x Hi. apply (Hdecl (S i)). simpl. by rewrite Hnext.
Qed.

(** A chain whose names are all declared and that visits no name twice
    ends within as many steps as there are structs. *)
Lemma acyclic_chain_ends structs b :
  (∀ i x, chain_at structs i b = Some x → is_Some (find_struct x structs)) →
  (∀ i j x, i < j → chain_at structs i b = Some x → chain_at structs j b = Some x → False) →
  is_Some (base_chain (length structs) structs b).
Proof.
  intros Hdecl Hacyclic.
  destruct (base_chain (length structs) structs b) as [chain|] eqn:Hc; [by eexists|].
  exfalso. apply base_chain_continues in Hc; [|done].
  set (visited := (λ i, default "" (chain_at structs i b)) <$> seq 0 (S (length structs))).
  assert (∀ i x, visited !! i = Some x → chain_at structs i b = Some x) as Hvisited.
  { intros i x. unfold visited. rewrite list_lookup_fmap.
    intros (k & [-> Hlt]%lookup_seq & ->)%fmap_Some. simpl.
    destruct (chain_at_prefix structs i (length structs) b) as [y Hy]; [lia|done|].
    by rewrite Hy. }
  assert (NoDup visited) as Hnd.
  { apply NoDup_alt. intros i j x Hi%Hvisited Hj%Hvisited.
    destruct (Nat.lt_trichotomy i j) as [Hlt|[Heq|Hgt]]; [|done|].
    - destruct (Hacyclic i j x Hlt Hi Hj).
    - destruct (Hacyclic j i x Hgt Hj Hi). }
  assert (∀ x, x ∈ visited → x ∈ Struct.name <$> structs) as Hsub.
  { intros x [i Hi%Hvisited]%list_elem_of_lookup.
    destruct (Hdecl i x Hi) as [s [Hin <-]%find_struct_Some].
    by apply list_elem_of_fmap_2. }
  pose proof (submseteq_length _ _ (NoDup_submseteq _ _ Hnd Hsub)) as Hlen.
  unfold visited in Hlen. rewrite !length_fmap, length_seq in Hlen. lia.
Qed.

(** ** [handleStructs]: one assignment per entry, the last one stays *)

Lemma last_named_cons n s rest :
  last_named n (s :: rest)
  = match last_named n rest with
    | Some x => Some x
    | None => if bool_decide (Struct.name s = n) then Some s else None
    end.
Proof.
  unfold last_named. rewrite reverse_cons, find_struct_app.
  destruct (find_struct n (reverse rest)); [done|].
  unfold find_struct. simpl. by destruct (bool_decide _).
Qed.

Lemma last_named_Some n structs s :
  last_named n structs = Some s → s ∈ structs ∧ Struct.name s = n.
Proof.
  unfold last_named. intros [Hin Hn]%find_struct_Some.
  split; [|done]. by apply elem_of_reverse.
Qed.

Lemma last_named_None n structs :
  last_named n structs = None ↔ n ∉ map Struct.name structs.
Proof.
  unfold last_named. rewrite find_struct_None, !map_fmap, fmap_reverse.
  by rewrite elem_of_reverse.
Qed.

(** The entry at [j] is the last of its name when no later entry has it. *)
Lemma last_named_lookup structs j s :
  structs !! j = Some s →
  (∀ k s', j < k → structs !! k = Some s' → Struct.name s' ≠ Struct.name s) →
  last_named (Struct.name s) structs = Some s.
Proof.
  revert j. induction structs as [|x rest IH]; intros j Hj Hlater; [done|].
  rewrite last_named_cons. destruct j as [|j]; simpl in Hj.
  - injection Hj as ->.
    destruct (last_named (Struct.name s) rest) as [y|] eqn:Hy.
    + apply last_named_Some in Hy as [Hin Hn].
      apply list_elem_of_lookup in Hin as [k Hk].
      destruct (Hlater (S k) y); [lia|done..].
    + by rewrite bool_decide_eq_true_2.
  - rewrite (IH j); [done..|].
    intros k s' Hk Hs'. apply (Hlater (S k)); [lia|done].
Qed.

Section StructsProperties.
Context {codec : Type} (eosio_types : gmap string codec).

Lemma handleStructs_loop_Normal frames structs todo acc sch :
  handleStructs_loop eosio_types frames structs todo acc = Normal sch →
  (∀ s, s ∈ todo → returns (ast_fields eosio_types frames structs s) = true)
  ∧ ∀ n, sch !! n = match last_named n todo with
                    | Some s => value_of (ast_fields eosio_types frames structs s)
                    | None => acc !! n
                    end.
Proof.
  revert acc. induction todo as [|s rest IH]; intros acc; simpl.
  - intros [= ->]. split; [by intros s ?%elem_of_nil|done].
  - unfold mbind at 1, completion_bind at 1, cbind at 1.
    destruct (ast_fields eosio_types frames structs s) as [fs|e] eqn:Hs; [|done].
    intros [Hall Hsch]%IH. split.
    + intros s' [->|Hin]%elem_of_cons; [by rewrite Hs|by apply Hall].
    + intros n. rewrite Hsch, last_named_cons.
      destruct (last_named n rest); [done|].
      case_bool_decide as Hn.
      * subst n. by rewrite lookup_insert_eq, Hs.
      * by rewrite lookup_insert_ne.
Qed.

Lemma handleStructs_loop_Throw frames structs todo acc e :
  handleStructs_loop eosio_types frames structs todo acc = Throw e →
  ∃ s, s ∈ todo ∧ ast_fields eosio_types frames structs s = Throw e.
Proof.
  revert acc. induction todo as [|s rest IH]; intros acc; simpl; [done|].
  unfold mbind at 1, completion_bind at 1, cbind at 1.
  destruct (ast_fields eosio_types frames structs s) as [fs|e'] eqn:Hs.
  - intros (s' & Hin & Hs')%IH. exists s'. split; [by right|done].
  - intros [= ->]. exists s. split; [by left|done].
Qed.

(** [handleStructs] returns exactly when every entry resolves; the schema
    then holds, under each name, the fields of the last entry of that name. *)
Lemma handleStructs_Normal frames structs sch :
  handleStructs eosio_types frames structs = Normal sch →
  (∀ s, s ∈ structs → returns (ast_fields eosio_types frames structs s) = true)
  ∧ ∀ n, sch !! n = s ← last_named n structs;
                    value_of (ast_fields eosio_types frames structs s).
Proof.
  intros [Hall Hsch]%handleStructs_loop_Normal. split; [done|].
  intros n. rewrite Hsch. by destruct (last_named n structs).
Qed.

Lemma handleStructs_Throw frames structs e :
  handleStructs eosio_types frames structs = Throw e →
  ∃ s, s ∈ structs ∧ ast_fields eosio_types frames structs s = Throw e.
Proof. apply handleStructs_loop_Throw. Qed.

Lemma handleStructs_returns frames structs :
  (∀ s, s ∈ structs → returns (ast_fields eosio_types frames structs s) = true) →
  ∃ sch, handleStructs eosio_types frames structs = Normal sch.
Proof.
  intros Hall.
  destruct (handleStructs eosio_types frames structs) as [sch|e] eqn:H; [by eexists|].
  apply handleStructs_Throw in H as (s & Hin & Hs).
  specialize (Hall s Hin). by rewrite Hs in Hall.
Qed.

Lemma handleStructs_stuck frames structs s :
  s ∈ structs →
  returns (ast_fields eosio_types frames structs s) = false →
  ∃ e, handleStructs eosio_types frames structs = Throw e.
Proof.
  intros Hin Hs.
  destruct (handleStructs eosio_types frames structs) as [sch|e] eqn:H; [|by eexists].
  apply handleStructs_Normal in H as [Hall _].
  specialize (Hall s Hin). congruence.
Qed.

Lemma schema_keys frames structs sch n :
  handleStructs eosio_types frames structs = Normal sch →
  is_Some (sch !! n) ↔ n ∈ map Struct.name structs.
Proof.
  intros [Hall Hsch]%handleStructs_Normal. rewrite Hsch.
  destruct (last_named n structs) as [s|] eqn:Hs; simpl.
  - apply last_named_Some in Hs as [Hin <-].
    specialize (Hall s Hin).
    destruct (ast_fields eosio_types frames structs s); [|done].
    split; [intros _|by eexists]. rewrite map_fmap. by apply list_elem_of_fmap_2.
  - apply last_named_None in Hs. split; [by intros [? ?]|done].
Qed.

(** The fields of an entry: those of its base, then its own. *)
Lemma ast_fields_no_base frames structs s fs :
  truthy (Struct.base s) = None →
  Struct.fields s = Some fs →
  ast_fields eosio_types frames structs s = Normal (map (field_ast eosio_types) fs).
Proof. intros Hb Hf. unfold ast_fields, fields_with_base_fields. by rewrite Hb, Hf. Qed.

Lemma ast_fields_base frames structs s b inherited own :
  truthy (Struct.base s) = Some b →
  handleBaseFields frames b structs = Normal inherited →
  Struct.fields s = Some own →
  ast_fields eosio_types frames structs s
  = Normal (map (field_ast eosio_types) inherited ++ map (field_ast eosio_types) own).
Proof.
  intros Hb Hi Hf. unfold ast_fields, fields_with_base_fields.
  rewrite Hb, Hi, Hf. unfold_bind. by rewrite map_app.
Qed.

Lemma ast_fields_no_fields frames structs s :
  Struct.fields s = None →
  returns (ast_fields eosio_types frames structs s) = false.
Proof.
  intros Hf. unfold ast_fields, fields_with_base_fields. rewrite Hf.
  destruct (truthy _); [|done]. unfold_bind. by destruct (handleBaseFields _ _ _).
Qed.

Lemma ast_fields_base_stuck frames structs s b :
  truthy (Struct.base s) = Some b →
  returns (handleBaseFields frames b structs) = false →
  returns (ast_fields eosio_types frames structs s) = false.
Proof.
  intros Hb Hr. unfold ast_fields, fields_with_base_fields. rewrite Hb.
  unfold_bind. by destruct (handleBaseFields _ _ _).
Qed.
End StructsProperties.

(** ** Cyclic inheritance (C2) *)

Section Cycles.
Context {codec : Type} (eosio_types : gmap string codec).

(** C2, as the code has it: [handleBaseFields] keeps no resolution stack
    and makes no cycle check.  When an entry of the working struct list has
    a base whose chain comes back to a name it has already visited, the
    recursion uses up every number of call frames it is given, however
    large, and ends in the engine's [RangeError]; resolution returns no
    schema and signals no error of its own for the cycle. *)
Theorem cyclic_base_exhausts_frames frames abi (h : store) declared k s b i j x :
  h !! Abi.structs abi = Some declared →
  working_structs abi declared !! k = Some s →
  truthy (Struct.base s) = Some b →
  i < j →
  chain_at (working_structs abi declared) i b = Some x →
  chain_at (working_structs abi declared) j b = Some x →
  handleBaseFields frames b (working_structs abi declared) = Throw RangeError
  ∧ ∃ e, (eosio_abi_to_graphql_ast eosio_types frames abi h).2 = Throw e.
Proof.
  intros Hh Hk Hb Hij Hi Hj.
  pose proof (handleBaseFields_revisit _ _ _ _ _ Hij Hi Hj frames) as Hover.
  split; [done|].
  rewrite (resolve_eq _ _ _ _ _ Hh). simpl.
  eapply handleStructs_stuck; [by eapply list_elem_of_lookup_2|].
  eapply ast_fields_base_stuck; [done|]. by rewrite Hover.
Qed.
End Cycles.

Lemma cyclic_base_exhausts_frames_witness :
  handleBaseFields 1000 "B" cyclic_structs = Throw RangeError
  ∧ ∃ e, (eosio_abi_to_graphql_ast sample_types 1000 (document [] [])
            (holding cyclic_structs)).2 = Throw e.
Proof.
  apply (cyclic_base_exhausts_frames sample_types 1000 (document [] [])
           (holding cyclic_structs) cyclic_structs 0
           (Struct.mk "A" (Some "B") (Some [Field.mk "a" "name"])) "B" 0 2 "B");
    [reflexivity | reflexivity | reflexivity | lia | reflexivity | reflexivity].
Defined.

(** C2, as stated, fails where [A] has base [B] and [B] has base [A]: there
    is no number of frames with which resolution stops before it has used
    them all; what it signals is the exhaustion, not the cycle. *)
Lemma cyclic_inheritance_overflows :
  ¬ ∃ frames, (eosio_abi_to_graphql_ast sample_types frames (document [] [])
                 (holding cyclic_structs)).2 ≠ Throw RangeError.
Proof.
  intros [frames Hstops]. apply Hstops. clear Hstops. rewrite (resolve_eq _ _ _ _ cyclic_structs) by reflexivity.
  cbn [snd]. change (working_structs (document [] []) cyclic_structs) with cyclic_structs.
  assert (ast_fields sample_types frames cyclic_structs
            (Struct.mk "A" (Some "B") (Some [Field.mk "a" "name"]))
          = Throw RangeError) as HA.
  { unfold ast_fields, fields_with_base_fields. cbn [Struct.base truthy].
    rewrite (handleBaseFields_revisit _ "B" 0 2 "B"); [done|lia|done..]. }
  unfold handleStructs. unfold cyclic_structs at 2. cbn [handleStructs_loop].
  by rewrite HA.
Qed.

(** ** The caller's document (C3) *)

(** C3 fails on a document with one variant and an empty struct list: after
    resolution the caller's [structs] array holds the struct synthesized
    for the variant, because [new_structs] is the caller's array itself. *)
Theorem variant_pushed_onto_callers_array :
  holding [] !! Abi.structs (document [] [Variant.mk "v" ["name"]]) = Some []
  ∧ (eosio_abi_to_graphql_ast sample_types 1 (document [] [Variant.mk "v" ["name"]])
       (holding [])).1 !! Abi.structs (document [] [Variant.mk "v" ["name"]])
    = Some [Struct.mk "v" (Some "") (Some [Field.mk "name" "name$@"])].
Proof. split; reflexivity. Qed.

(** ** Marker-only type strings (C4) *)

Section MarkerOnly.
Context {codec : Type} (eosio_types : gmap string codec).

(** C4, as the code has it: a field whose raw type string consists of
    marker characters only is parsed without any error.  Its descriptor has
    the empty string as base type, is an object unless the registry has the
    empty key, and carries the flags of its markers; the struct that
    declares it resolves normally. *)
Theorem marker_only_type_gives_empty_base frames structs s fs i f :
  truthy (Struct.base s) = None →
  Struct.fields s = Some fs →
  fs !! i = Some f →
  only_markers (Field.type f) = true →
  ∃ afs, ast_fields eosio_types frames structs s = Normal afs
    ∧ afs !! i = Some
        (AstField.mk (Field.name f) ""
           (Info.mk (negb (is_primitive eosio_types ""))
              (has_char "$" (Field.type f) || has_char "?" (Field.type f))
              (has_brackets (Field.type f))
              (has_char "$" (Field.type f))
              (has_char "@" (Field.type f)))).
Proof.
  intros Hb Hfs Hi Hm. eexists. split; [by apply ast_fields_no_base|].
  rewrite map_fmap, list_lookup_fmap, Hi. simpl. unfold field_ast.
  apply only_markers_strip in Hm. by rewrite Hm.
Qed.
End MarkerOnly.

Lemma marker_only_type_gives_empty_base_witness :
  ∃ afs, ast_fields sample_types 1 marker_struct
           (Struct.mk "s" (Some "") (Some [Field.mk "f" "[]?$@"])) = Normal afs
    ∧ afs !! 0 = Some (AstField.mk "f" "" (Info.mk true true true true true)).
Proof.
  apply (marker_only_type_gives_empty_base sample_types 1 marker_struct
           (Struct.mk "s" (Some "") (Some [Field.mk "f" "[]?$@"]))
           [Field.mk "f" "[]?$@"] 0 (Field.mk "f" "[]?$@"));
    reflexivity.
Defined.

(** C4, as stated, fails on the type string ["[]?$@"]: resolution returns a
    schema, in which the field has the empty base type. *)
Lemma marker_only_type_is_accepted :
  (eosio_abi_to_graphql_ast sample_types 1 (document [] []) (holding marker_struct)).2
  = Normal {[ "s" := [AstField.mk "f" "" (Info.mk true true true true true)] ]}.
Proof. reflexivity. Qed.

(** ** Where flattened fields come from *)




(** ** The invariant of the schema (C5) *)

Section SchemaInvariant.
Context {codec : Type} (eosio_types : gmap string codec).

End SchemaInvariant.



(** ** Names that nothing declares (C6) *)

Lemma working_structs_alias abi declared pre a post :
  default [] (Abi.types abi) = pre ++ a :: post →
  let before := fold_left push_alias pre
                  (declared ++ map variant_struct (default [] (Abi.variants abi))) in
  ∃ later, working_structs abi declared = before ++ alias_struct before a :: later
           ∧ map Struct.name later = map Alias.new_type_name post.
Proof.
  intros Hts before. unfold working_structs. rewrite Hts, fold_left_app. simpl.
  fold before. destruct (fold_push_alias post (push_alias before a)) as (later & -> & Hn).
  exists later. unfold push_alias. by rewrite <- app_assoc.
Qed.

Section Undeclared.
Context {codec : Type} (eosio_types : gmap string codec).

(** C6, as the code has it: names are looked up in the working struct
    list, not among the declared structs.  When an entry of the working
    list has a base that [find] does not locate in that list, or an alias
    has a real type that [find] does not locate in the list as it stands
    when the alias is expanded (declared structs, variant structs, earlier
    alias copies), resolution throws and returns no schema, with any number
    of frames. *)
Theorem unresolved_reference_throws frames abi (h : store) declared :
  h !! Abi.structs abi = Some declared →
  (∃ k s b,
     working_structs abi declared !! k = Some s
     ∧ truthy (Struct.base s) = Some b
     ∧ find_struct b (working_structs abi declared) = None)
  ∨ (∃ pre a post,
       default [] (Abi.types abi) = pre ++ a :: post
       ∧ find_struct (Alias.type a)
           (fold_left push_alias pre
              (declared ++ map variant_struct (default [] (Abi.variants abi)))) = None) →
  ∃ e, (eosio_abi_to_graphql_ast eosio_types frames abi h).2 = Throw e.
Proof.
  intros Hh Hcase. rewrite (resolve_eq _ _ _ _ _ Hh). simpl.
  destruct Hcase as [(k & s & b & Hk & Hb & Hfind)|(pre & a & post & Hts & Hfind)].
  - eapply handleStructs_stuck; [by eapply list_elem_of_lookup_2|].
    eapply ast_fields_base_stuck; [done|]. by apply handleBaseFields_undeclared.
  - destruct (working_structs_alias _ declared _ _ _ Hts) as (later & HW & _).
    eapply handleStructs_stuck.
    + rewrite HW. apply elem_of_app. right. by left.
    + apply ast_fields_no_fields. unfold alias_struct. by rewrite Hfind.
Qed.
End Undeclared.

Lemma unresolved_reference_throws_witness :
  (∃ e, (eosio_abi_to_graphql_ast sample_types 8 (document [] [])
           (holding orphan_struct)).2 = Throw e)
  ∧ (∃ e, (eosio_abi_to_graphql_ast sample_types 8
             (document [Alias.mk "ghost" "T"] []) (holding [])).2 = Throw e).
Proof.
  split.
  - apply (unresolved_reference_throws sample_types 8 (document [] [])
             (holding orphan_struct) orphan_struct); [reflexivity|].
    left. exists 0, (Struct.mk "C" (Some "ghost") (Some [Field.mk "b" "name"])), "ghost".
    split; [reflexivity|]. split; reflexivity.
  - apply (unresolved_reference_throws sample_types 8
             (document [Alias.mk "ghost" "T"] []) (holding []) []); [reflexivity|].
    right. exists [], (Alias.mk "ghost" "T"), []. split; reflexivity.
Defined.

(** C6, as stated, fails on [borrowed_document]: the base of [C] names no
    declared struct, it names a variant; the real type of the alias [U]
    is neither a declared struct, nor a variant, nor a primitive, it is
    the alias [T].  Resolution returns a schema all the same, in which [C]
    has the fields of the variant before its own and [U] the fields of
    [A]. *)
Lemma variant_base_and_alias_of_alias_resolve :
  find_struct "v" borrowed_structs = None
  ∧ find_struct "T" (borrowed_structs ++ map variant_struct [name_or_asset]) = None
  ∧ is_primitive sample_types "T" = false
  ∧ ∃ sch,
      (eosio_abi_to_graphql_ast sample_types 2 borrowed_document
         (holding borrowed_structs)).2 = Normal sch
      ∧ sch !! "C"
        = Some (map (field_ast sample_types)
                  [Field.mk "name" "name$@"; Field.mk "asset" "asset$@";
                   Field.mk "b" "string"])
      ∧ sch !! "U" = Some [field_ast sample_types (Field.mk "x" "name")].
Proof.
  split; [reflexivity|]. split; [reflexivity|]. split; [reflexivity|].
  eexists. split; [reflexivity|]. split; reflexivity.
Qed.

(** ** Flattening of base structs (C7) *)

Section Flattening.
Context {codec : Type} (eosio_types : gmap string codec).

(** C7: let an entry [s] of a struct list have a base that [find] locates
    as [bs], with a base chain that ends at a struct without base and whose
    structs all have a field list (by [acyclic_chain_ends] a chain of
    declared names that visits none twice ends, and by [base_chain_revisit]
    no other does).  Once the frames cover the chain, [bs] resolves to the
    fields of the chain, outermost ancestor first, and [s] resolves to the
    resolved fields of [bs] followed by its own declared fields.  In particular, with [B] of no base and fields [[a]] and [C] of
    base [B] and fields [[b]], the schema maps [C] to [[a; b]]. *)
Theorem base_fields_precede_own :
  (∀ frames structs s b bs n chain own,
     truthy (Struct.base s) = Some b →
     find_struct b structs = Some bs →
     base_chain n structs b = Some chain →
     forallb has_fields chain = true →
     Struct.fields s = Some own →
     (n ≤ frames)%nat →
     ∃ inherited,
       ast_fields eosio_types frames structs bs = Normal inherited
       ∧ inherited = map (field_ast eosio_types) (declared_fields chain)
       ∧ ast_fields eosio_types frames structs s
         = Normal (inherited ++ map (field_ast eosio_types) own))
  ∧ (∀ frames a b, (1 ≤ frames)%nat →
       ∃ sch,
         (eosio_abi_to_graphql_ast eosio_types frames (document [] [])
            (holding (B_then_C a b))).2 = Normal sch
         ∧ sch !! "C" = Some [field_ast eosio_types a; field_ast eosio_types b]).
Proof.
  split.
  - intros frames structs s b bs n chain own Hb Hbs Hchain Hfields Hown Hle.
    pose proof (handleBaseFields_chain _ _ _ _ _ Hchain Hfields Hle) as Hres.
    exists (map (field_ast eosio_types) (declared_fields chain)).
    split; [|split; [done|by eapply ast_fields_base]].
    destruct n as [|n']; [done|]. simpl in Hchain. rewrite Hbs in Hchain. simpl in Hchain.
    unfold ast_fields, fields_with_base_fields.
    destruct (truthy (Struct.base bs)) as [nb|].
    + apply fmap_Some in Hchain as (anc & Hanc & ->).
      rewrite forallb_app in Hfields. apply andb_true_iff in Hfields as [Hanc_f Hbs_f].
      rewrite (handleBaseFields_chain _ _ _ _ frames Hanc Hanc_f) by lia.
      rewrite declared_fields_snoc. simpl in Hbs_f. unfold has_fields in Hbs_f.
      destruct (Struct.fields bs); [|done]. by unfold_bind.
    + injection Hchain as <-. simpl in Hfields. unfold has_fields in Hfields.
      unfold declared_fields. simpl. destruct (Struct.fields bs); [|done].
      unfold_bind. simpl. by rewrite app_nil_r.
  - intros frames a b Hle. destruct frames as [|frames]; [lia|].
    eexists. split; reflexivity.
Qed.
End Flattening.

Lemma base_fields_precede_own_witness :
  ∃ inherited,
    ast_fields sample_types 2 three_levels
      (Struct.mk "B" (Some "A") (Some [Field.mk "y" "asset"])) = Normal inherited
    ∧ inherited
      = map (field_ast sample_types)
          (declared_fields
             [Struct.mk "A" (Some "") (Some [Field.mk "x" "name"]);
              Struct.mk "B" (Some "A") (Some [Field.mk "y" "asset"])])
    ∧ ast_fields sample_types 2 three_levels
        (Struct.mk "C" (Some "B") (Some [Field.mk "z" "string"]))
      = Normal (inherited ++ map (field_ast sample_types) [Field.mk "z" "string"]).
Proof.
  apply (proj1 (base_fields_precede_own sample_types) 2 three_levels
           (Struct.mk "C" (Some "B") (Some [Field.mk "z" "string"])) "B"
           (Struct.mk "B" (Some "A") (Some [Field.mk "y" "asset"])) 2
           [Struct.mk "A" (Some "") (Some [Field.mk "x" "name"]);
            Struct.mk "B" (Some "A") (Some [Field.mk "y" "asset"])]
           [Field.mk "z" "string"]);
    [reflexivity | reflexivity | reflexivity | reflexivity | reflexivity | lia].
Defined.

(** ** Variants as structs (C8) *)

Section Variants.
Context {codec : Type} (eosio_types : gmap string codec).

(** C8: for every declared variant, at position [i] of [variants], the
    struct list that resolution works on, which is the array it leaves in
    the store and hands to [handleStructs], holds right after the declared
    structs, at position [i] among the variants, a struct of the variant's
    name with no base, with one field per member type [t] in declared
    order, of name [t] and raw type [t] followed by ["$@"]. *)
Theorem variant_struct_pushed frames abi (h : store) declared variants i v :
  h !! Abi.structs abi = Some declared →
  Abi.variants abi = Some variants →
  variants !! i = Some v →
  ∃ working st fs,
    (eosio_abi_to_graphql_ast eosio_types frames abi h).1 !! Abi.structs abi = Some working
    ∧ (eosio_abi_to_graphql_ast eosio_types frames abi h).2
      = handleStructs eosio_types frames working
    ∧ working !! (length declared + i)%nat = Some st
    ∧ Struct.name st = Variant.name v
    ∧ truthy (Struct.base st) = None
    ∧ Struct.fields st = Some fs
    ∧ length fs = length (Variant.types v)
    ∧ ∀ k t, Variant.types v !! k = Some t → fs !! k = Some (Field.mk t (t +:+ "$@")).
Proof.
  intros Hh Hvs Hi. rewrite (resolve_eq _ _ _ _ _ Hh). simpl.
  exists (working_structs abi declared), (variant_struct v).
  eexists. split; [apply lookup_insert_eq|]. split; [done|].
  split; [|split; [done|split; [done|split; [done|split]]]].
  - unfold working_structs. rewrite Hvs. simpl.
    destruct (fold_push_alias (default [] (Abi.types abi))
                (declared ++ map variant_struct variants)) as (copies & -> & _).
    rewrite <- app_assoc, lookup_app_r by lia.
    replace (length declared + i - length declared) with i by lia.
    rewrite lookup_app_l.
    + by rewrite map_fmap, list_lookup_fmap, Hi.
    + rewrite length_map. by eapply lookup_lt_Some.
  - by rewrite length_map.
  - intros k t Ht. by rewrite map_fmap, list_lookup_fmap, Ht.
Qed.
End Variants.

Lemma variant_struct_pushed_witness :
  ∃ working st fs,
    (eosio_abi_to_graphql_ast sample_types 1 (document [] [name_or_asset])
       (holding three_levels)).1 !! Abi.structs (document [] [name_or_asset])
    = Some working
    ∧ (eosio_abi_to_graphql_ast sample_types 1 (document [] [name_or_asset])
         (holding three_levels)).2
      = handleStructs sample_types 1 working
    ∧ working !! (length three_levels + 0)%nat = Some st
    ∧ Struct.name st = Variant.name name_or_asset
    ∧ truthy (Struct.base st) = None
    ∧ Struct.fields st = Some fs
    ∧ length fs = length (Variant.types name_or_asset)
    ∧ ∀ k t, Variant.types name_or_asset !! k = Some t →
             fs !! k = Some (Field.mk t (t +:+ "$@")).
Proof.
  apply (variant_struct_pushed sample_types 1 (document [] [name_or_asset])
           (holding three_levels) three_levels [name_or_asset] 0 name_or_asset);
    reflexivity.
Defined.

(** ** Aliases and shared names (C9, C10) *)

Lemma lookup_after_drop {A} (l : list A) j k x :
  j < k → l !! k = Some x → x ∈ drop (S j) l.
Proof.
  intros Hjk Hk. apply list_elem_of_lookup. exists (k - S j).
  rewrite lookup_drop. by replace (S j + (k - S j)) with k by lia.
Qed.

Section SharedNames.
Context {codec : Type} (eosio_types : gmap string codec).

Lemma ast_fields_content frames structs s1 s2 :
  Struct.base s1 = Struct.base s2 →
  Struct.fields s1 = Struct.fields s2 →
  ast_fields eosio_types frames structs s1 = ast_fields eosio_types frames structs s2.
Proof.
  intros Hb Hf. unfold ast_fields, fields_with_base_fields. by rewrite Hb, Hf.
Qed.

(** C9, as the code has it: an alias is a copy of the first entry named
    [real] in the struct list as it stands when the alias is expanded
    (declared structs, then variant structs, then earlier alias copies),
    while the schema keeps, under each name, the last entry of that name.
    On every ABI on which resolution returns a schema, if [find] locates
    [real], no later alias registers [new_type_name] again, and every entry
    named [real] has the base and fields of the one located, then the
    schema maps [new_type_name] and [real] to the same field list, that of
    the entry located; a variant name is located like any other. *)
Theorem alias_transparency frames abi (h : store) declared sch pre a post found :
  h !! Abi.structs abi = Some declared →
  (eosio_abi_to_graphql_ast eosio_types frames abi h).2 = Normal sch →
  default [] (Abi.types abi) = pre ++ a :: post →
  find_struct (Alias.type a)
    (fold_left push_alias pre
       (declared ++ map variant_struct (default [] (Abi.variants abi)))) = Some found →
  forallb (λ a', negb (bool_decide (Alias.new_type_name a' = Alias.new_type_name a))) post
  = true →
  forallb (λ s, implb (named (Alias.type a) s) (same_content s found))
    (working_structs abi declared) = true →
  ∃ fs, ast_fields eosio_types frames (working_structs abi declared) found = Normal fs
    ∧ sch !! Alias.new_type_name a = Some fs
    ∧ sch !! Alias.type a = Some fs.
Proof.
  intros Hh Hres Hts Hfound Hlater Hsame.
  rewrite (resolve_eq _ _ _ _ _ Hh) in Hres. simpl in Hres.
  destruct (working_structs_alias _ declared _ _ _ Hts) as (later & HW & Hnames).
  set (before := fold_left push_alias pre _) in *.
  set (W := working_structs abi declared) in *.
  set (copy := alias_struct before a) in *.
  pose proof (handleStructs_Normal _ _ _ _ Hres) as [Hall Hsch].
  pose proof (alias_struct_found _ _ _ Hfound) as [Hcb Hcf]. fold copy in Hcb, Hcf.
  pose proof (find_struct_Some _ _ _ Hfound) as [Hfin Hfname].
  assert (copy ∈ W) as Hcopy by (rewrite HW; apply elem_of_app; right; by left).
  assert (found ∈ W) as HfW by (rewrite HW; apply elem_of_app; by left).
  pose proof (Hall copy Hcopy) as Hret.
  rewrite (ast_fields_content _ _ _ found Hcb Hcf) in Hret.
  destruct (ast_fields eosio_types frames W found) as [fs|] eqn:Hfs; [|done].
  exists fs. split; [done|]. split.
  - rewrite Hsch, <- (alias_struct_name before a). fold copy.
    rewrite (last_named_lookup W (length before) copy).
    + simpl. by rewrite (ast_fields_content _ _ _ found Hcb Hcf), Hfs.
    + rewrite HW, lookup_app_r by lia. by rewrite Nat.sub_diag.
    + intros k' s' Hk' Hs'. rewrite HW, lookup_app_r in Hs' by lia.
      destruct (k' - length before) as [|m] eqn:Hm; [lia|]. simpl in Hs'.
      apply list_elem_of_lookup_2, (list_elem_of_fmap_2 Struct.name) in Hs'.
      rewrite <- map_fmap, Hnames, map_fmap in Hs'.
      apply list_elem_of_fmap in Hs' as (a' & Ha' & Hin').
      rewrite forallb_forall in Hlater.
      specialize (Hlater a' (proj1 (list_elem_of_In _ _) Hin')).
      apply negb_true_iff, bool_decide_eq_false in Hlater.
      unfold copy. rewrite alias_struct_name. congruence.
  - rewrite Hsch.
    destruct (last_named (Alias.type a) W) as [s'|] eqn:Hs'.
    + apply last_named_Some in Hs' as [Hin' Hn']. simpl.
      rewrite forallb_forall in Hsame.
      specialize (Hsame s' (proj1 (list_elem_of_In _ _) Hin')).
      unfold named in Hsame. rewrite bool_decide_eq_true_2 in Hsame by done.
      apply bool_decide_eq_true in Hsame as [Hb' Hf'].
      by rewrite (ast_fields_content _ _ _ found Hb' Hf'), Hfs.
    + apply last_named_None in Hs'. destruct Hs'.
      rewrite <- Hfname, map_fmap. by apply list_elem_of_fmap_2.
Qed.

End SharedNames.

Lemma alias_transparency_witness :
  ∃ fs,
    ast_fields sample_types 2
      (working_structs (document [Alias.mk "v" "T"] [name_or_asset]) three_levels)
      (variant_struct name_or_asset) = Normal fs
    ∧ default ∅ (value_of
        (eosio_abi_to_graphql_ast sample_types 2
           (document [Alias.mk "v" "T"] [name_or_asset]) (holding three_levels)).2)
      !! "T" = Some fs
    ∧ default ∅ (value_of
        (eosio_abi_to_graphql_ast sample_types 2
           (document [Alias.mk "v" "T"] [name_or_asset]) (holding three_levels)).2)
      !! "v" = Some fs.
Proof.
  apply (alias_transparency sample_types 2
           (document [Alias.mk "v" "T"] [name_or_asset]) (holding three_levels)
           three_levels _ [] (Alias.mk "v" "T") [] (variant_struct name_or_asset));
    reflexivity.
Defined.

(** C9, as stated, fails when the name [A] is declared twice and [T] is an
    alias of [A]: the alias copies the first [A], the schema keeps the
    second under [A]. *)
Lemma alias_of_redeclared_name_differs :
  ∃ sch,
    (eosio_abi_to_graphql_ast sample_types 1 (document [Alias.mk "A" "T"] [])
       (holding twice_declared)).2 = Normal sch
    ∧ sch !! "T" = Some [AstField.mk "x" "name" (Info.mk false false false false false)]
    ∧ sch !! "A" = Some [AstField.mk "y" "string" (Info.mk false false false false false)]
    ∧ sch !! "T" ≠ sch !! "A".
Proof.
  eexists. split; [reflexivity|]. split; [reflexivity|]. split; [reflexivity|].
  discriminate.
Qed.


(** * Further properties of the resolver *)

(** ** The call frames: more of them change nothing *)

Lemma handleBaseFields_stable frames frames' b structs :
  handleBaseFields frames b structs ≠ Throw RangeError →
  (frames ≤ frames')%nat →
  handleBaseFields frames' b structs = handleBaseFields frames b structs.
Proof.
  revert frames' b. induction frames as [|frames IH]; intros frames' b; simpl; [done|].
  intros Hne Hle. destruct frames' as [|frames']; [lia|]. simpl.
  destruct (find_struct b structs) as [s|]; [|done].
  destruct (truthy (Struct.base s)) as [nb|]; [|done].
  rewrite (IH frames' nb); [done| |lia].
  intros Hover. rewrite Hover in Hne. by apply Hne.
Qed.

Section Frames.
Context {codec : Type} (eosio_types : gmap string codec).

Lemma ast_fields_stable frames frames' structs s :
  ast_fields eosio_types frames structs s ≠ Throw RangeError →
  (frames ≤ frames')%nat →
  ast_fields eosio_types frames' structs s = ast_fields eosio_types frames structs s.
Proof.
  unfold ast_fields, fields_with_base_fields. intros Hne Hle.
  destruct (truthy (Struct.base s)) as [b|]; [|done].
  rewrite (handleBaseFields_stable frames frames' b structs); [done| |done].
  intros Hover. rewrite Hover in Hne. by apply Hne.
Qed.

Lemma handleStructs_loop_stable frames frames' structs todo acc :
  handleStructs_loop eosio_types frames structs todo acc ≠ Throw RangeError →
  (frames ≤ frames')%nat →
  handleStructs_loop eosio_types frames' structs todo acc
  = handleStructs_loop eosio_types frames structs todo acc.
Proof.
  revert acc. induction todo as [|s rest IH]; intros acc; simpl; [done|].
  intros Hne Hle.
  rewrite (ast_fields_stable frames frames' structs s); [| |done].
  - destruct (ast_fields eosio_types frames structs s) as [fs|e] eqn:Hs; [|done].
    unfold mbind, completion_bind, cbind in *. by apply IH.
  - intros Hover. rewrite Hover in Hne. by apply Hne.
Qed.

(** X1: whatever resolution does without running out of call frames, it does
    the same with any larger number of them: the schema returned, or the
    [TypeError] thrown, and the array left in the store do not depend on
    the depth of the stack. *)
Theorem frames_monotone frames frames' abi (h : store) :
  (eosio_abi_to_graphql_ast eosio_types frames abi h).2 ≠ Throw RangeError →
  (frames ≤ frames')%nat →
  eosio_abi_to_graphql_ast eosio_types frames' abi h
  = eosio_abi_to_graphql_ast eosio_types frames abi h.
Proof.
  intros Hne Hle.
  destruct (h !! Abi.structs abi) as [declared|] eqn:Hh.
  - rewrite !(resolve_eq _ _ _ _ _ Hh) in *. simpl in Hne. f_equal.
    by apply handleStructs_loop_stable.
  - by rewrite !(resolve_undefined _ _ _ _ Hh).
Qed.
End Frames.

Lemma frames_monotone_witness :
  eosio_abi_to_graphql_ast sample_types 50 (document [Alias.mk "C" "T"] [name_or_asset])
    (holding three_levels)
  = eosio_abi_to_graphql_ast sample_types 2 (document [Alias.mk "C" "T"] [name_or_asset])
      (holding three_levels).
Proof.
  apply (frames_monotone sample_types 2 50); [discriminate | lia].
Defined.

(** ** When resolution returns a schema *)

Lemma base_chain_mono structs n m b chain :
  base_chain n structs b = Some chain →
  (n ≤ m)%nat →
  base_chain m structs b = Some chain.
Proof.
  revert m b chain. induction n as [|n IH]; intros m b chain; simpl; [done|].
  intros (s & Hs & Hc)%bind_Some Hle. destruct m as [|m]; [lia|]. simpl.
  rewrite Hs. simpl. destruct (truthy (Struct.base s)) as [nb|]; [|done].
  apply fmap_Some in Hc as (anc & Hanc & ->).
  by rewrite (IH m nb anc Hanc) by lia.
Qed.

(** A chain that ends does so within as many steps as there are structs. *)
Lemma base_chain_bounded structs n b chain :
  base_chain n structs b = Some chain →
  base_chain (length structs) structs b = Some chain.
Proof.
  intros Hc.
  destruct (acyclic_chain_ends structs b) as [chain' Hc'].
  - intros i x Hi.
    destruct (base_chain_suffix _ _ _ _ _ _ Hi Hc) as (n' & c' & Hx & _).
    destruct n' as [|n']; [done|]. simpl in Hx.
    apply bind_Some in Hx as (s & Hs & _). by eexists.
  - intros i j x Hij Hi Hj.
    by rewrite (base_chain_revisit _ _ _ _ _ n Hij Hi Hj) in Hc.
  - pose proof (base_chain_mono _ _ (n `max` length structs) _ _ Hc) as H1.
    pose proof (base_chain_mono _ _ (n `max` length structs) _ _ Hc') as H2.
    rewrite H1 in H2 by lia. rewrite Hc'. symmetry. apply H2. lia.
Qed.

(** What [handleBaseFields] returns is the declared fields of a chain. *)
Lemma handleBaseFields_Normal frames b structs inherited :
  handleBaseFields frames b structs = Normal inherited →
  ∃ chain, base_chain frames structs b = Some chain
           ∧ forallb has_fields chain = true
           ∧ inherited = declared_fields chain.
Proof.
  revert b inherited. induction frames as [|frames IH]; intros b inherited; simpl; [done|].
  destruct (find_struct b structs) as [s|]; [|done]. simpl.
  destruct (truthy (Struct.base s)) as [nb|].
  - destruct (handleBaseFields frames nb structs) as [l|] eqn:Hl; unfold_bind; [|done].
    destruct (IH nb l Hl) as (anc & Hanc & Hf & ->).
    destruct (Struct.fields s) as [fs|] eqn:Hfs; [|done].
    intros [= <-]. exists (anc ++ [s]). rewrite Hanc. split; [done|].
    split.
    + rewrite forallb_app, Hf. simpl. unfold has_fields. by rewrite Hfs.
    + rewrite declared_fields_snoc. by rewrite Hfs.
  - unfold_bind. destruct (Struct.fields s) as [fs|] eqn:Hfs; [|done].
    intros [= <-]. exists [s]. split; [done|]. split.
    + simpl. unfold has_fields. by rewrite Hfs.
    + unfold declared_fields. simpl. by rewrite Hfs, app_nil_r.
Qed.

Section WellFormed.
Context {codec : Type} (eosio_types : gmap string codec).

Lemma ast_fields_returns frames structs s :
  (length structs ≤ frames)%nat →
  returns (ast_fields eosio_types frames structs s) = entry_resolves structs s.
Proof.
  intros Hle. unfold ast_fields, fields_with_base_fields, entry_resolves.
  assert (has_fields s = match Struct.fields s with Some _ => true | None => false end)
    as -> by done.
  destruct (truthy (Struct.base s)) as [b|];
    [|destruct (Struct.fields s); by unfold_bind].
  destruct (handleBaseFields frames b structs) as [l|e] eqn:Hl.
  - apply handleBaseFields_Normal in Hl as (chain & Hc & Hf & _).
    apply base_chain_bounded in Hc. rewrite Hc, Hf.
    destruct (Struct.fields s); by unfold_bind.
  - destruct (base_chain (length structs) structs b) as [chain|] eqn:Hc;
      [destruct (forallb has_fields chain) eqn:Hf|].
    + by rewrite (handleBaseFields_chain _ _ _ _ frames Hc Hf Hle) in Hl.
    + destruct (Struct.fields s); by unfold_bind.
    + destruct (Struct.fields s); by unfold_bind.
Qed.

Lemma handleStructs_well_formed frames structs :
  (length structs ≤ frames)%nat →
  returns (handleStructs eosio_types frames structs) = well_formed structs.
Proof.
  intros Hle. unfold well_formed.
  destruct (forallb (entry_resolves structs) structs) eqn:Hwf.
  - rewrite forallb_forall in Hwf.
    destruct (handleStructs_returns eosio_types frames structs) as [sch ->]; [|done].
    intros s Hs. rewrite ast_fields_returns by done.
    by apply Hwf, list_elem_of_In.
  - destruct (handleStructs eosio_types frames structs) as [sch|] eqn:Hres; [|done].
    apply handleStructs_Normal in Hres as [Hall _].
    assert (forallb (entry_resolves structs) structs = true) as Hwf'; [|congruence].
    apply forallb_forall. intros s Hs%list_elem_of_In.
    rewrite <- (ast_fields_returns frames) by done. by apply Hall.
Qed.

(** X2: given as many call frames as the working struct list has entries,
    resolution returns a schema exactly when every entry declares a field
    list and every base chain ends, within the list, at a struct without
    base, through structs that declare their field lists; otherwise it
    throws.  The check is [well_formed], which computes. *)
Theorem resolution_returns_iff_well_formed frames abi (h : store) declared :
  h !! Abi.structs abi = Some declared →
  (length (working_structs abi declared) ≤ frames)%nat →
  returns (eosio_abi_to_graphql_ast eosio_types frames abi h).2
  = well_formed (working_structs abi declared).
Proof.
  intros Hh Hle. rewrite (resolve_eq _ _ _ _ _ Hh). simpl.
  by apply handleStructs_well_formed.
Qed.
End WellFormed.

Lemma resolution_returns_iff_well_formed_witness :
  returns (eosio_abi_to_graphql_ast sample_types 5
             (document [Alias.mk "C" "T"] [name_or_asset]) (holding three_levels)).2
  = well_formed (working_structs (document [Alias.mk "C" "T"] [name_or_asset]) three_levels).
Proof.
  apply (resolution_returns_iff_well_formed sample_types 5
           (document [Alias.mk "C" "T"] [name_or_asset]) (holding three_levels)
           three_levels); [reflexivity | vm_compute; lia].
Defined.

(** ** What resolution writes *)

Lemma working_structs_parts abi declared :
  ∃ copies,
    working_structs abi declared
    = declared ++ map variant_struct (default [] (Abi.variants abi)) ++ copies
    ∧ map Struct.name copies = map Alias.new_type_name (default [] (Abi.types abi)).
Proof.
  unfold working_structs.
  destruct (fold_push_alias (default [] (Abi.types abi))
              (declared ++ map variant_struct (default [] (Abi.variants abi))))
    as (copies & -> & Hn).
  exists copies. by rewrite <- app_assoc.
Qed.

Section Effect.
Context {codec : Type} (eosio_types : gmap string codec).

(** X3: resolution, whether it returns or throws, writes one array only, the
    [structs] of the document: every other array of the store is as it
    was, the declared structs are still the first entries of [structs], in
    their order, and one entry was pushed for each variant and one for each
    alias. *)
Theorem resolution_appends_to_structs frames abi (h : store) declared :
  h !! Abi.structs abi = Some declared →
  (∀ l, l ≠ Abi.structs abi →
     (eosio_abi_to_graphql_ast eosio_types frames abi h).1 !! l = h !! l)
  ∧ ∃ added,
      (eosio_abi_to_graphql_ast eosio_types frames abi h).1 !! Abi.structs abi
      = Some (declared ++ added)
      ∧ length added
        = (length (default [] (Abi.variants abi)) + length (default [] (Abi.types abi)))%nat
      ∧ map Struct.name added
        = map Variant.name (default [] (Abi.variants abi))
          ++ map Alias.new_type_name (default [] (Abi.types abi)).
Proof.
  intros Hh. rewrite (resolve_eq _ _ _ _ _ Hh). simpl. split.
  - intros l Hl. by rewrite lookup_insert_ne.
  - destruct (working_structs_parts abi declared) as (copies & -> & Hn).
    eexists. split; [apply lookup_insert_eq|].
    assert (map Struct.name (map variant_struct (default [] (Abi.variants abi)))
            = map Variant.name (default [] (Abi.variants abi))) as Hv.
    { rewrite map_map. by apply map_ext. }
    split.
    + rewrite length_app, length_map. f_equal.
      by rewrite <- (length_map Struct.name), Hn, length_map.
    + by rewrite map_app, Hv, Hn.
Qed.

(** X4: when every entry of the working struct list has a name that the
    assignment [graphql_ast_structs[name] = ast_fields] adds as a property
    (any name but [__proto__]), the properties of a schema that resolution
    returns are the names of the declared structs, the names of the
    variants and the new names of the aliases, and no other. *)
Theorem schema_keys_are_declared_names frames abi (h : store) declared sch n :
  h !! Abi.structs abi = Some declared →
  forallb (λ s, adds_property (Struct.name s)) (working_structs abi declared) = true →
  (eosio_abi_to_graphql_ast eosio_types frames abi h).2 = Normal sch →
  is_Some (sch !! n)
  ↔ n ∈ map Struct.name declared
    ∨ n ∈ map Variant.name (default [] (Abi.variants abi))
    ∨ n ∈ map Alias.new_type_name (default [] (Abi.types abi)).
Proof.
  intros Hh _ Hres. rewrite (resolve_eq _ _ _ _ _ Hh) in Hres. simpl in Hres.
  rewrite (schema_keys _ _ _ _ _ Hres).
  destruct (working_structs_parts abi declared) as (copies & -> & Hn).
  rewrite !map_app, Hn, map_map, !elem_of_app.
  by rewrite (map_ext (λ x, Struct.name (variant_struct x)) Variant.name).
Qed.
End Effect.

Lemma resolution_appends_to_structs_witness :
  (∀ l, l ≠ Abi.structs (document [Alias.mk "ghost" "T"] [name_or_asset]) →
     (eosio_abi_to_graphql_ast sample_types 3
        (document [Alias.mk "ghost" "T"] [name_or_asset]) (holding three_levels)).1 !! l
     = holding three_levels !! l)
  ∧ ∃ added,
      (eosio_abi_to_graphql_ast sample_types 3
         (document [Alias.mk "ghost" "T"] [name_or_asset]) (holding three_levels)).1
      !! Abi.structs (document [Alias.mk "ghost" "T"] [name_or_asset])
      = Some (three_levels ++ added)
      ∧ length added = (length [name_or_asset] + length [Alias.mk "ghost" "T"])%nat
      ∧ map Struct.name added
        = map Variant.name [name_or_asset]
          ++ map Alias.new_type_name [Alias.mk "ghost" "T"].
Proof.
  apply (resolution_appends_to_structs sample_types 3
           (document [Alias.mk "ghost" "T"] [name_or_asset]) (holding three_levels)
           three_levels).
  reflexivity.
Defined.

Lemma schema_keys_are_declared_names_witness :
  is_Some (default ∅ (value_of
             (eosio_abi_to_graphql_ast sample_types 3
                (document [Alias.mk "C" "T"] [name_or_asset]) (holding three_levels)).2)
           !! "T")
  ↔ "T" ∈ map Struct.name three_levels
    ∨ "T" ∈ map Variant.name [name_or_asset]
    ∨ "T" ∈ map Alias.new_type_name [Alias.mk "C" "T"].
Proof.
  apply (schema_keys_are_declared_names sample_types 3
           (document [Alias.mk "C" "T"] [name_or_asset]) (holding three_levels)
           three_levels); reflexivity.
Defined.

(** ** The schema entry of a variant *)

Lemma has_char_app c s1 s2 :
  has_char c (s1 +:+ s2) = has_char c s1 || has_char c s2.
Proof.
  induction s1 as [|a r IH]; simpl; [done|]. by rewrite IH, orb_assoc.
Qed.

Lemma strip_markers_app s1 s2 :
  strip_markers (s1 +:+ s2) = strip_markers s1 +:+ strip_markers s2.
Proof.
  induction s1 as [|a r IH]; simpl; [done|].
  destruct (is_marker a); simpl; by rewrite IH.
Qed.

Lemma has_brackets_slot t : has_brackets (t +:+ "$@") = has_brackets t.
Proof.
  induction t as [|a r IH]; [done|].
  change (String a r +:+ "$@") with (String a (r +:+ "$@")).
  destruct r as [|b r'].
  - simpl. by rewrite andb_false_r.
  - change (has_brackets (String a (String b r')))
      with (bool_decide (a = "["%char) && bool_decide (b = "]"%char)
            || has_brackets (String b r')).
    rewrite <- IH. done.
Qed.

Section VariantEntry.
Context {codec : Type} (eosio_types : gmap string codec).

(** The descriptor of the slot of a member type [t] of a variant. *)
Lemma field_ast_slot t :
  field_ast eosio_types (Field.mk t (t +:+ "$@"))
  = AstField.mk t (strip_markers t)
      (Info.mk (negb (is_primitive eosio_types (strip_markers t)))
         true (has_brackets t) true true).
Proof.
  unfold field_ast. simpl.
  rewrite !has_char_app, strip_markers_app, has_brackets_slot. simpl.
  rewrite !orb_true_r.
  assert (strip_markers t +:+ "" = strip_markers t) as ->; [|done].
  generalize (strip_markers t). intros u. induction u as [|a u IH]; [done|].
  change (String a u +:+ "") with (String a (u +:+ "")). by rewrite IH.
Qed.

(** X5: a variant whose name no later variant and no alias takes is, in the
    schema that resolution returns, a list of one field per member type, in
    declared order: the field has the member type as its name, the member
    type without markers as its base type, and is flagged optional,
    extension and variant member, whatever markers the member type has. *)
Theorem variant_schema_entry frames abi (h : store) declared sch variants i v :
  h !! Abi.structs abi = Some declared →
  (eosio_abi_to_graphql_ast eosio_types frames abi h).2 = Normal sch →
  Abi.variants abi = Some variants →
  variants !! i = Some v →
  forallb (λ v', negb (bool_decide (Variant.name v' = Variant.name v)))
    (drop (S i) variants) = true →
  forallb (λ a, negb (bool_decide (Alias.new_type_name a = Variant.name v)))
    (default [] (Abi.types abi)) = true →
  sch !! Variant.name v
  = Some (map (λ t, AstField.mk t (strip_markers t)
                      (Info.mk (negb (is_primitive eosio_types (strip_markers t)))
                         true (has_brackets t) true true))
            (Variant.types v)).
Proof.
  intros Hh Hres Hvs Hi Hlater Halias.
  rewrite (resolve_eq _ _ _ _ _ Hh) in Hres. simpl in Hres.
  pose proof (handleStructs_Normal _ _ _ _ Hres) as [_ Hsch].
  destruct (working_structs_parts abi declared) as (copies & HW & Hn).
  rewrite Hvs in HW. simpl in HW.
  change (Variant.name v) with (Struct.name (variant_struct v)).
  rewrite Hsch,
    (last_named_lookup (working_structs abi declared) (length declared + i) (variant_struct v)).
  - unfold mbind, option_bind.
    rewrite (ast_fields_no_base eosio_types frames (working_structs abi declared)
               (variant_struct v) _ eq_refl eq_refl).
    simpl. f_equal.
    rewrite map_map. apply map_ext. intros t. apply field_ast_slot.
  - rewrite HW, lookup_app_r by lia.
    replace (length declared + i - length declared) with i by lia.
    rewrite lookup_app_l; [by rewrite map_fmap, list_lookup_fmap, Hi|].
    rewrite length_map. by eapply lookup_lt_Some.
  - intros k s' Hk Hs'. rewrite HW, lookup_app_r in Hs' by lia. simpl.
    destruct (decide (k - length declared < length variants)) as [Hin|Hout].
    + rewrite lookup_app_l in Hs' by (by rewrite length_map).
      rewrite map_fmap, list_lookup_fmap in Hs'.
      apply fmap_Some in Hs' as (v' & Hv' & ->). simpl.
      rewrite forallb_forall in Hlater.
      assert (v' ∈ drop (S i) variants) as Hd.
      { apply (lookup_after_drop variants i (k - length declared)); [lia|done]. }
      specialize (Hlater v' (proj1 (list_elem_of_In _ _) Hd)).
      by apply negb_true_iff, bool_decide_eq_false in Hlater.
    + rewrite lookup_app_r in Hs' by (rewrite length_map; lia).
      apply list_elem_of_lookup_2, (list_elem_of_fmap_2 Struct.name) in Hs'.
      rewrite <- map_fmap, Hn, map_fmap in Hs'.
      apply list_elem_of_fmap in Hs' as (a & -> & Ha).
      rewrite forallb_forall in Halias.
      specialize (Halias a (proj1 (list_elem_of_In _ _) Ha)).
      by apply negb_true_iff, bool_decide_eq_false in Halias.
Qed.
End VariantEntry.

Lemma variant_schema_entry_witness :
  default ∅ (value_of
    (eosio_abi_to_graphql_ast sample_types 3
       (document [Alias.mk "C" "T"] [Variant.mk "v" ["name"; "C[]"]])
       (holding three_levels)).2) !! "v"
  = Some (map (λ t, AstField.mk t (strip_markers t)
                      (Info.mk (negb (is_primitive sample_types (strip_markers t)))
                         true (has_brackets t) true true))
            ["name"; "C[]"]).
Proof.
  apply (variant_schema_entry sample_types 3
           (document [Alias.mk "C" "T"] [Variant.mk "v" ["name"; "C[]"]])
           (holding three_levels) three_levels _ [Variant.mk "v" ["name"; "C[]"]] 0
           (Variant.mk "v" ["name"; "C[]"]));
    reflexivity.
Defined.

(** ** Resolving the same document again *)

Lemma last_named_app n l1 l2 :
  last_named n (l1 ++ l2)
  = match last_named n l2 with Some s => Some s | None => last_named n l1 end.
Proof. unfold last_named. by rewrite reverse_app, find_struct_app. Qed.

Lemma handleBaseFields_extend frames b structs more inherited :
  handleBaseFields frames b structs = Normal inherited →
  handleBaseFields frames b (structs ++ more) = Normal inherited.
Proof.
  revert b inherited. induction frames as [|frames IH]; intros b inherited; simpl; [done|].
  rewrite find_struct_app.
  destruct (find_struct b structs) as [s|]; [|done].
  destruct (truthy (Struct.base s)) as [nb|]; [|done].
  destruct (handleBaseFields frames nb structs) as [l|] eqn:Hl; unfold_bind; [|done].
  by rewrite (IH nb l Hl).
Qed.

(** Expanding the aliases once more, over a list that already holds their
    copies, makes the same copies. *)
Lemma fold_push_alias_again ts current copies tail :
  fold_left push_alias ts current = current ++ copies →
  forallb has_fields copies = true →
  fold_left push_alias ts (current ++ copies ++ tail)
  = current ++ copies ++ tail ++ copies.
Proof.
  revert current copies tail.
  induction ts as [|a ts IH]; intros current copies tail; simpl.
  - intros Hc _. rewrite <- (app_nil_r current) in Hc at 1.
    apply app_inv_head in Hc. subst copies. by rewrite !app_nil_r.
  - intros Hc Hf.
    destruct (fold_push_alias ts (push_alias current a)) as (rest & Hrest & _).
    rewrite Hc in Hrest. unfold push_alias in Hrest. rewrite <- app_assoc in Hrest.
    apply app_inv_head in Hrest. simpl in Hrest. subst copies.
    simpl in Hf. apply andb_true_iff in Hf as [Hcopy Hf].
    assert (alias_struct (current ++ (alias_struct current a :: rest) ++ tail) a
            = alias_struct current a) as Hsame.
    { unfold alias_struct in *. rewrite find_struct_app.
      by destruct (find_struct (Alias.type a) current). }
    unfold push_alias at 2. rewrite Hsame.
    replace ((current ++ (alias_struct current a :: rest) ++ tail) ++ [alias_struct current a])
      with (push_alias current a ++ rest ++ (tail ++ [alias_struct current a])).
    2:{ unfold push_alias. by rewrite <- !app_assoc. }
    rewrite (IH (push_alias current a) rest); [|by rewrite Hc; unfold push_alias;
      rewrite <- app_assoc|done].
    unfold push_alias. by rewrite <- !app_assoc.
Qed.

Section Again.
Context {codec : Type} (eosio_types : gmap string codec).

Lemma ast_fields_extend frames structs more s fs :
  ast_fields eosio_types frames structs s = Normal fs →
  ast_fields eosio_types frames (structs ++ more) s = Normal fs.
Proof.
  unfold ast_fields, fields_with_base_fields.
  destruct (truthy (Struct.base s)) as [b|]; [|done].
  destruct (handleBaseFields frames b structs) as [l|] eqn:Hl; unfold_bind; [|done].
  by rewrite (handleBaseFields_extend _ _ _ more _ Hl).
Qed.

(** X6: resolution pushes onto the document it is given, and yet resolving
    the same document a second time, as the first resolution has left it,
    returns the same schema: the entries pushed twice resolve as before and
    the last entry of each name has the same fields. *)
Theorem second_resolution_same_schema frames abi (h : store) declared sch :
  h !! Abi.structs abi = Some declared →
  (eosio_abi_to_graphql_ast eosio_types frames abi h).2 = Normal sch →
  (eosio_abi_to_graphql_ast eosio_types frames abi
     (eosio_abi_to_graphql_ast eosio_types frames abi h).1).2 = Normal sch.
Proof.
  intros Hh Hres. rewrite (resolve_eq _ _ _ _ _ Hh) in *. simpl in *.
  rewrite (resolve_eq _ _ _ _ (working_structs abi declared)) by apply lookup_insert_eq.
  simpl.
  pose proof (handleStructs_Normal _ _ _ _ Hres) as [Hall Hsch].
  set (V := map variant_struct (default [] (Abi.variants abi))).
  destruct (fold_push_alias (default [] (Abi.types abi)) (declared ++ V))
    as (C & HW & _).
  assert (working_structs abi declared = (declared ++ V) ++ C) as HW1 by done.
  assert (forallb has_fields C = true) as HC.
  { apply forallb_forall. intros s Hs%list_elem_of_In.
    assert (s ∈ working_structs abi declared) as Hin.
    { rewrite HW1. apply elem_of_app. by right. }
    specialize (Hall s Hin). unfold has_fields.
    destruct (Struct.fields s) eqn:Hf; [done|].
    by rewrite (ast_fields_no_fields _ _ _ _ Hf) in Hall. }
  assert (working_structs abi (working_structs abi declared)
          = working_structs abi declared ++ V ++ C) as HW2.
  { unfold working_structs at 1. fold V. rewrite HW1.
    rewrite <- (app_assoc (declared ++ V) C V).
    rewrite (fold_push_alias_again _ (declared ++ V) C V HW HC).
    by rewrite <- !app_assoc. }
  rewrite HW2.
  assert (∀ s, s ∈ working_structs abi declared ++ V ++ C →
               s ∈ working_structs abi declared) as Hsub.
  { intros s [Hs|[Hs|Hs]%elem_of_app]%elem_of_app; [done|..];
      rewrite HW1, !elem_of_app; auto. }
  destruct (handleStructs_returns eosio_types frames (working_structs abi declared ++ V ++ C))
    as [sch2 Hres2].
  { intros s Hs%Hsub. specialize (Hall s Hs).
    destruct (ast_fields eosio_types frames (working_structs abi declared) s) as [fs|] eqn:Hfs;
      [|done].
    by rewrite (ast_fields_extend _ _ _ _ _ Hfs). }
  rewrite Hres2. f_equal. apply map_eq. intros n.
  pose proof (handleStructs_Normal _ _ _ _ Hres2) as [_ Hsch2].
  rewrite Hsch, Hsch2.
  assert (last_named n (working_structs abi declared ++ V ++ C)
          = last_named n (working_structs abi declared)) as ->.
  { rewrite !last_named_app, HW1, !last_named_app.
    destruct (last_named n C); [done|]. by destruct (last_named n V). }
  destruct (last_named n (working_structs abi declared)) as [s|] eqn:Hs; [|done].
  simpl. apply last_named_Some in Hs as [Hin _]. specialize (Hall s Hin).
  destruct (ast_fields eosio_types frames (working_structs abi declared) s) as [fs|] eqn:Hfs;
    [|done].
  by rewrite (ast_fields_extend _ _ _ _ _ Hfs).
Qed.
End Again.

Lemma second_resolution_same_schema_witness :
  (eosio_abi_to_graphql_ast sample_types 3
     (document [Alias.mk "A" "v"; Alias.mk "v" "T"] [name_or_asset])
     (eosio_abi_to_graphql_ast sample_types 3
        (document [Alias.mk "A" "v"; Alias.mk "v" "T"] [name_or_asset])
        (holding three_levels)).1).2
  = Normal (default ∅ (value_of
      (eosio_abi_to_graphql_ast sample_types 3
         (document [Alias.mk "A" "v"; Alias.mk "v" "T"] [name_or_asset])
         (holding three_levels)).2)).
Proof.
  apply (second_resolution_same_schema sample_types 3
           (document [Alias.mk "A" "v"; Alias.mk "v" "T"] [name_or_asset])
           (holding three_levels) three_levels); reflexivity.
Defined.

(** ** The order of the declarations *)

Lemma name_determines_entry (l : list Struct.t) s1 s2 :
  NoDup (map Struct.name l) →
  s1 ∈ l → s2 ∈ l → Struct.name s1 = Struct.name s2 → s1 = s2.
Proof.
  induction l as [|x l IH]; simpl; [by intros _ ?%elem_of_nil|].
  intros [Hx Hnd]%NoDup_cons [->|H1]%elem_of_cons [->|H2]%elem_of_cons Hn; [done|..].
  - destruct Hx. rewrite Hn, map_fmap. by apply list_elem_of_fmap_2.
  - destruct Hx. rewrite <- Hn, map_fmap. by apply list_elem_of_fmap_2.
  - by apply IH.
Qed.

Lemma find_struct_unique n (l : list Struct.t) s :
  NoDup (map Struct.name l) →
  s ∈ l → Struct.name s = n → find_struct n l = Some s.
Proof.
  intros Hnd Hin Hn.
  destruct (find_struct n l) as [s'|] eqn:Hf.
  - apply find_struct_Some in Hf as [Hin' Hn'].
    f_equal. apply (name_determines_entry l); [done..|congruence].
  - apply find_struct_None in Hf. destruct Hf.
    rewrite <- Hn, map_fmap. by apply list_elem_of_fmap_2.
Qed.

Lemma find_struct_perm n (l l' : list Struct.t) :
  l ≡ₚ l' → NoDup (map Struct.name l) → find_struct n l = find_struct n l'.
Proof.
  intros Hp Hnd.
  assert (NoDup (map Struct.name l')) as Hnd'.
  { rewrite map_fmap in *. by rewrite <- Hp. }
  destruct (find_struct n l) as [s|] eqn:Hf.
  - apply find_struct_Some in Hf as [Hin Hn]. symmetry.
    apply find_struct_unique; [done| |done]. by rewrite <- Hp.
  - symmetry. apply find_struct_None. apply find_struct_None in Hf.
    rewrite map_fmap in *. by rewrite <- Hp.
Qed.

Lemma handleBaseFields_find frames b structs structs' :
  (∀ n, find_struct n structs = find_struct n structs') →
  handleBaseFields frames b structs = handleBaseFields frames b structs'.
Proof.
  intros Hfind. revert b. induction frames as [|frames IH]; intros b; simpl; [done|].
  rewrite <- Hfind. destruct (find_struct b structs) as [s|]; [|done].
  destruct (truthy (Struct.base s)) as [nb|]; [|done]. by rewrite IH.
Qed.

Lemma fold_push_alias_perm ts (cur cur' : list Struct.t) :
  cur ≡ₚ cur' →
  NoDup (map Struct.name (fold_left push_alias ts cur)) →
  fold_left push_alias ts cur ≡ₚ fold_left push_alias ts cur'.
Proof.
  revert cur cur'. induction ts as [|a ts IH]; intros cur cur' Hp Hnd; simpl in *; [done|].
  assert (NoDup (map Struct.name cur)) as Hcur.
  { destruct (fold_push_alias ts (push_alias cur a)) as (copies & Heq & _).
    rewrite Heq in Hnd. unfold push_alias in Hnd.
    rewrite <- app_assoc, map_app in Hnd. by apply NoDup_app in Hnd as [? _]. }
  assert (alias_struct cur a = alias_struct cur' a) as Hc.
  { unfold alias_struct. by rewrite (find_struct_perm _ cur cur'). }
  assert (push_alias cur' a = cur' ++ [alias_struct cur a]) as Hpush.
  { unfold push_alias. by rewrite Hc. }
  rewrite Hpush. apply IH; [|done]. unfold push_alias. by apply Permutation_app_tail.
Qed.

Section Order.
Context {codec : Type} (eosio_types : gmap string codec).

Lemma handleStructs_perm frames (structs structs' : list Struct.t) :
  structs ≡ₚ structs' →
  NoDup (map Struct.name structs) →
  value_of (handleStructs eosio_types frames structs)
  = value_of (handleStructs eosio_types frames structs').
Proof.
  intros Hp Hnd.
  assert (NoDup (map Struct.name structs')) as Hnd'.
  { rewrite map_fmap in *. by rewrite <- Hp. }
  assert (∀ s, ast_fields eosio_types frames structs s
               = ast_fields eosio_types frames structs' s) as Hast.
  { intros s. unfold ast_fields, fields_with_base_fields.
    destruct (truthy (Struct.base s)) as [b|]; [|done].
    rewrite (handleBaseFields_find frames b structs structs'); [done|].
    intros n. by apply find_struct_perm. }
  destruct (handleStructs eosio_types frames structs) as [sch|e] eqn:Hres.
  - pose proof (handleStructs_Normal _ _ _ _ Hres) as [Hall Hsch].
    destruct (handleStructs_returns eosio_types frames structs') as [sch' Hres'].
    { intros s Hs. rewrite <- Hast. apply Hall. by rewrite Hp. }
    rewrite Hres'. simpl. f_equal. apply map_eq. intros n.
    pose proof (handleStructs_Normal _ _ _ _ Hres') as [_ Hsch'].
    rewrite Hsch, Hsch'. unfold last_named.
    rewrite (find_struct_perm n (reverse structs) (reverse structs')).
    + destruct (find_struct n (reverse structs')); [|done]. simpl. by rewrite Hast.
    + by rewrite !reverse_Permutation.
    + rewrite map_fmap in *. by rewrite reverse_Permutation.
  - apply handleStructs_Throw in Hres as (s & Hin & Hs).
    destruct (handleStructs_stuck eosio_types frames structs' s) as [e' ->]; [| |done].
    + by rewrite <- Hp.
    + by rewrite <- Hast, Hs.
Qed.

(** X7: when no two entries of the working struct list share a name, the
    order in which the document declares its structs does not matter: two
    documents that differ only by a permutation of their declared structs
    resolve to the same schema, or both to none. *)
Theorem declaration_order_irrelevant frames abi (h h' : store) declared declared' :
  h !! Abi.structs abi = Some declared →
  h' !! Abi.structs abi = Some declared' →
  declared ≡ₚ declared' →
  NoDup (map Struct.name (working_structs abi declared)) →
  value_of (eosio_abi_to_graphql_ast eosio_types frames abi h).2
  = value_of (eosio_abi_to_graphql_ast eosio_types frames abi h').2.
Proof.
  intros Hh Hh' Hp Hnd.
  rewrite (resolve_eq _ _ _ _ _ Hh), (resolve_eq _ _ _ _ _ Hh'). simpl.
  apply handleStructs_perm; [|done].
  unfold working_structs in *. apply fold_push_alias_perm; [|done]. by rewrite Hp.
Qed.
End Order.

Lemma declaration_order_irrelevant_witness :
  value_of (eosio_abi_to_graphql_ast sample_types 3
              (document [Alias.mk "C" "T"] [name_or_asset]) (holding three_levels)).2
  = value_of (eosio_abi_to_graphql_ast sample_types 3
                (document [Alias.mk "C" "T"] [name_or_asset])
                (holding (reverse three_levels))).2.
Proof.
  apply (declaration_order_irrelevant sample_types 3
           (document [Alias.mk "C" "T"] [name_or_asset])
           (holding three_levels) (holding (reverse three_levels))
           three_levels (reverse three_levels));
    [reflexivity | reflexivity | symmetry; apply reverse_Permutation
    | apply (bool_decide_unpack _); vm_compute; exact I].
Defined.

(** ** Stack exhaustion comes from cycles only *)

Lemma handleBaseFields_overflow frames b structs i :
  handleBaseFields frames b structs = Throw RangeError →
  i < frames →
  ∃ x, chain_at structs i b = Some x ∧ is_Some (find_struct x structs).
Proof.
  revert b i. induction frames as [|frames IH]; intros b i; simpl; [lia|].
  destruct (find_struct b structs) as [s|] eqn:Hs; [|done].
  destruct (truthy (Struct.base s)) as [nb|] eqn:Hb.
  - destruct (handleBaseFields frames nb structs) as [l|e] eqn:Hl; unfold_bind.
    { by destruct (Struct.fields s). }
    intros [= ->] Hi. destruct i as [|i].
    + exists b. split; [done|]. by rewrite Hs.
    + destruct (IH nb i Hl) as (x & Hx & Hfound); [lia|].
      exists x. split; [|done]. simpl.
      assert (next_base structs b = Some nb) as ->; [|done].
      apply next_base_Some. by exists s.
  - unfold_bind. by destruct (Struct.fields s).
Qed.

Lemma omap_total_length {A B} (f : A → option B) (l : list A) :
  (∀ x, x ∈ l → is_Some (f x)) → length (omap f l) = length l.
Proof.
  induction l as [|x l IH]; intros Hall; [done|]. simpl.
  destruct (Hall x) as [y Hy]; [by left|]. rewrite Hy. simpl. f_equal.
  apply IH. intros z Hz. apply Hall. by right.
Qed.

Section Exhaustion.
Context {codec : Type} (eosio_types : gmap string codec).

(** X8: with more call frames than the working struct list has entries,
    resolution runs out of them only on cyclic inheritance: when no base
    chain of the list visits a name twice, it does not throw [RangeError]
    (it returns a schema, or throws [TypeError]). *)
Theorem stack_exhaustion_only_on_cycles frames abi (h : store) declared :
  h !! Abi.structs abi = Some declared →
  length (working_structs abi declared) < frames →
  acyclic (working_structs abi declared) = true →
  (eosio_abi_to_graphql_ast eosio_types frames abi h).2 ≠ Throw RangeError.
Proof.
  intros Hh Hlen Hacyclic Hres.
  rewrite (resolve_eq _ _ _ _ _ Hh) in Hres. simpl in Hres.
  set (W := working_structs abi declared) in *.
  apply handleStructs_Throw in Hres as (s & Hin & Hs).
  unfold ast_fields, fields_with_base_fields in Hs.
  destruct (truthy (Struct.base s)) as [b|] eqn:Hb.
  2:{ by destruct (Struct.fields s). }
  destruct (handleBaseFields frames b W) as [l|e] eqn:Hl; unfold_bind.
  { by destruct (Struct.fields s). }
  injection Hs as ->.
  unfold acyclic in Hacyclic. rewrite forallb_forall in Hacyclic.
  specialize (Hacyclic s (proj1 (list_elem_of_In _ _) Hin)). simpl in Hacyclic.
  rewrite Hb in Hacyclic. apply bool_decide_eq_true in Hacyclic.
  assert (∀ y, y ∈ visited_names W b → y ∈ Struct.name <$> W) as Hsub.
  { intros y (i & [_ Hi]%elem_of_seq & Hy)%list_elem_of_omap.
    destruct (handleBaseFields_overflow _ _ _ i Hl) as (x & Hx & [sx Hfound]); [lia|].
    rewrite Hx in Hy. injection Hy as ->.
    apply find_struct_Some in Hfound as [Hsx <-]. by apply list_elem_of_fmap_2. }
  pose proof (submseteq_length _ _ (NoDup_submseteq _ _ Hacyclic Hsub)) as Hle.
  unfold visited_names in Hle. rewrite omap_total_length, length_seq, length_fmap in Hle.
  - lia.
  - intros i [_ Hi]%elem_of_seq.
    destruct (handleBaseFields_overflow _ _ _ i Hl) as (x & -> & _); [lia|].
    by eexists.
Qed.
End Exhaustion.

Lemma stack_exhaustion_only_on_cycles_witness :
  (eosio_abi_to_graphql_ast sample_types 6
     (document [Alias.mk "C" "T"] [name_or_asset]) (holding three_levels)).2
  ≠ Throw RangeError.
Proof.
  apply (stack_exhaustion_only_on_cycles sample_types 6
           (document [Alias.mk "C" "T"] [name_or_asset]) (holding three_levels)
           three_levels); [reflexivity | vm_compute; lia | vm_compute; reflexivity].
Defined.

(** ** A derived struct in the schema *)

Section Derived.
Context {codec : Type} (eosio_types : gmap string codec).

(** X9: in a schema that resolution returns for a working struct list without
    shared names, the entry of a struct that has a base is the entry of
    the base, as the schema has it, followed by the descriptors of the
    fields the struct declares itself. *)
Theorem derived_entry_extends_base_entry frames abi (h : store) declared sch k s b own :
  h !! Abi.structs abi = Some declared →
  (eosio_abi_to_graphql_ast eosio_types frames abi h).2 = Normal sch →
  NoDup (map Struct.name (working_structs abi declared)) →
  working_structs abi declared !! k = Some s →
  truthy (Struct.base s) = Some b →
  Struct.fields s = Some own →
  ∃ inherited,
    sch !! b = Some inherited
    ∧ sch !! Struct.name s = Some (inherited ++ map (field_ast eosio_types) own).
Proof.
  intros Hh Hres Hnd Hk Hb Hown.
  rewrite (resolve_eq _ _ _ _ _ Hh) in Hres. simpl in Hres.
  set (W := working_structs abi declared) in *.
  pose proof (handleStructs_Normal _ _ _ _ Hres) as [Hall Hsch].
  assert (s ∈ W) as Hin by (by eapply list_elem_of_lookup_2).
  assert (∀ x, x ∈ W → last_named (Struct.name x) W = Some x) as Hlast.
  { intros x Hx. unfold last_named. apply find_struct_unique; [|by apply elem_of_reverse|done].
    rewrite map_fmap in *. by rewrite reverse_Permutation. }
  pose proof (Hall s Hin) as Hs.
  unfold ast_fields, fields_with_base_fields in Hs. rewrite Hb, Hown in Hs.
  destruct (handleBaseFields frames b W) as [l|] eqn:Hl; [|done]. clear Hs.
  destruct frames as [|frames]; [done|]. pose proof Hl as Hl'. simpl in Hl'.
  destruct (find_struct b W) as [bs|] eqn:Hbs; [|done].
  apply find_struct_Some in Hbs as [Hbin Hbname].
  assert (ast_fields eosio_types (S frames) W bs = Normal (map (field_ast eosio_types) l))
    as Hbase.
  { unfold ast_fields, fields_with_base_fields.
    destruct (truthy (Struct.base bs)) as [nb|].
    - destruct (handleBaseFields frames nb W) as [l0|] eqn:Hl0; [|done].
      rewrite (handleBaseFields_stable frames (S frames) nb W); [|by rewrite Hl0|lia].
      rewrite Hl0. unfold_bind. destruct (Struct.fields bs); [|done].
      by injection Hl' as <-.
    - unfold_bind. destruct (Struct.fields bs); [|done]. by injection Hl' as <-. }
  exists (map (field_ast eosio_types) l). split.
  - rewrite Hsch, <- Hbname, (Hlast bs Hbin). simpl. by rewrite Hbase.
  - rewrite Hsch, (Hlast s Hin). simpl.
    by rewrite (ast_fields_base _ _ _ _ _ _ _ Hb Hl Hown).
Qed.
End Derived.

Lemma derived_entry_extends_base_entry_witness :
  ∃ inherited,
    default ∅ (value_of
      (eosio_abi_to_graphql_ast sample_types 3 (document [] [name_or_asset])
         (holding three_levels)).2) !! "B" = Some inherited
    ∧ default ∅ (value_of
        (eosio_abi_to_graphql_ast sample_types 3 (document [] [name_or_asset])
           (holding three_levels)).2) !! "C"
      = Some (inherited ++ map (field_ast sample_types) [Field.mk "z" "string"]).
Proof.
  apply (derived_entry_extends_base_entry sample_types 3 (document [] [name_or_asset])
           (holding three_levels) three_levels _ 2
           (Struct.mk "C" (Some "B") (Some [Field.mk "z" "string"])) "B"
           [Field.mk "z" "string"]);
    [reflexivity | reflexivity | apply (bool_decide_unpack _); vm_compute; exact I
    | reflexivity | reflexivity | reflexivity].
Defined.

(** ** The base type of a descriptor *)

Lemma strip_markers_idemp s : strip_markers (strip_markers s) = strip_markers s.
Proof.
  induction s as [|a r IH]; simpl; [done|].
  destruct (is_marker a) eqn:Ha; simpl; [done|]. by rewrite Ha, IH.
Qed.

Lemma has_brackets_has_char s : has_brackets s = true → has_char "[" s = true.
Proof.
  induction s as [|a r IH]; simpl; [done|]. destruct r as [|b r']; [done|].
  intros [[Ha _]%andb_true_iff|Hr]%orb_true_iff.
  - by rewrite Ha.
  - rewrite (IH Hr). apply orb_true_r.
Qed.

Section BaseType.
Context {codec : Type} (eosio_types : gmap string codec).

(** X10: the base type of a descriptor holds none of the characters
    [[ ] ? $ @]: a field declared with that base type as its raw type is
    parsed to the same base type and the same object flag, with the four
    marker flags off. *)
Theorem base_type_is_marker_free (field : Field.t) :
  let d := field_ast eosio_types field in
  (∀ c, is_marker c = true → has_char c (AstField.type d) = false)
  ∧ field_ast eosio_types (Field.mk (Field.name field) (AstField.type d))
    = AstField.mk (Field.name field) (AstField.type d)
        (Info.mk (Info.object (AstField._info d)) false false false false).
Proof.
  simpl. split; [intros c Hc; by apply strip_markers_clean|].
  unfold field_ast. simpl. rewrite strip_markers_idemp.
  rewrite !strip_markers_clean by done. simpl.
  destruct (has_brackets (strip_markers (Field.type field))) eqn:Hbr; [|done].
  apply has_brackets_has_char in Hbr. by rewrite strip_markers_clean in Hbr.
Qed.

(** X11: a document whose [structs] is undefined makes resolution throw a
    [TypeError], whatever its variants and aliases, and nothing is
    written. *)
Theorem undefined_structs_throw frames abi (h : store) :
  h !! Abi.structs abi = None →
  eosio_abi_to_graphql_ast eosio_types frames abi h = (h, Throw TypeError).
Proof. apply resolve_undefined. Qed.
End BaseType.

Lemma undefined_structs_throw_witness :
  eosio_abi_to_graphql_ast sample_types 3
    (document [Alias.mk "C" "T"] [name_or_asset]) (∅ : store)
  = (∅, Throw TypeError).
Proof.
  apply (undefined_structs_throw sample_types 3
           (document [Alias.mk "C" "T"] [name_or_asset]) ∅).
  reflexivity.
Defined.

(** * Properties of the GraphQL fields *)

(** ** [buildQGL]: what the cache of types holds *)

Section BuilderProperties.
Context {codec : Type} (eosio_types : gmap string codec) (AST : schema).
Context (object_type : string → field_map codec → gql_type codec).
Context (field_config : AstField.t → gql_type codec → FieldConfig.t (gql_type codec)).

Lemma settled_insert (TYPES : type_cache codec) T fs made :
  settled AST TYPES →
  AST !! T = Some fs →
  covered fs TYPES →
  settled AST (<[T := made]> TYPES).
Proof.
  intros [rank Hrank] HT Hcov.
  set (top := max_list (rank <$> elements (dom TYPES))).
  assert (∀ V, V ∈ dom TYPES → (rank V ≤ top)%nat) as Htop.
  { intros V HV. apply max_list_elem_of_le, list_elem_of_fmap_2.
    by apply elem_of_elements. }
  exists (λ V, if decide (V ∈ dom TYPES) then rank V else S top).
  intros U HU. rewrite dom_insert_L in HU.
  assert (∀ V, V ∈ dom TYPES → V ∈ dom (<[T := made]> TYPES)) as Hgrow.
  { intros V HV. rewrite dom_insert_L. apply elem_of_union. by right. }
  destruct (decide (U ∈ dom TYPES)) as [HU'|HU'].
  - destruct (Hrank U HU') as (fs' & Hfs' & Hf). exists fs'. split; [done|].
    intros f Hin' Hobj. destruct (Hf f Hin' Hobj) as [Hd Hr].
    split; [by apply Hgrow|]. by rewrite decide_True.
  - apply elem_of_union in HU as [->%elem_of_singleton|HU]; [|done].
    exists fs. split; [done|]. intros f Hin' Hobj.
    pose proof (Hcov f Hin' Hobj) as Hd.
    split; [by apply Hgrow|]. rewrite decide_True by done.
    specialize (Htop _ Hd). lia.
Qed.

Lemma buildQGL_loop_settled build fields acc TYPES TYPES' made :
  builds_settled AST build →
  buildQGL_loop eosio_types AST object_type field_config build fields acc TYPES
  = (TYPES', Normal made) →
  settled AST TYPES →
  settled AST TYPES' ∧ dom TYPES ⊆ dom TYPES' ∧ covered fields TYPES'.
Proof.
  intros Hbuild. revert acc TYPES.
  induction fields as [|field rest IH]; intros acc TYPES; simpl.
  - intros [= <- <-] Hs. split; [done|]. split; [done|]. by intros f ?%elem_of_nil.
  - destruct (Info.object (AstField._info field)) eqn:Hobj.
    + destruct (TYPES !! AstField.type field) as [cached|] eqn:Hc.
      * intros Hloop Hs. destruct (IH _ _ Hloop Hs) as (Hs' & Hsub & Hcov).
        split; [done|]. split; [done|].
        intros f [->|Hin]%elem_of_cons Hf; [|by apply Hcov].
        apply Hsub. by eapply elem_of_dom_2.
      * destruct (build (AST !! AstField.type field) TYPES) as [TYPES1 [nested|e]] eqn:Hb;
          [|done].
        intros Hloop Hs.
        destruct (Hbuild _ _ _ _ Hb Hs) as (Hs1 & Hsub1 & fs & Hfs & Hcov1).
        pose proof (settled_insert TYPES1 (AstField.type field) fs
                      (object_type (AstField.type field) nested) Hs1 Hfs Hcov1) as Hs2.
        destruct (IH _ _ Hloop Hs2) as (Hs' & Hsub & Hcov).
        assert (AstField.type field ∈ dom TYPES') as Hfield.
        { apply Hsub. rewrite dom_insert_L. apply elem_of_union. left.
          by apply elem_of_singleton. }
        split; [done|]. split.
        { intros V HV. apply Hsub. rewrite dom_insert_L. apply elem_of_union. right.
          by apply Hsub1. }
        intros f [->|Hin]%elem_of_cons Hf; [done|by apply Hcov].
    + intros Hloop Hs. destruct (IH _ _ Hloop Hs) as (Hs' & Hsub & Hcov).
      split; [done|]. split; [done|].
      intros f [->|Hin]%elem_of_cons Hf; [congruence|by apply Hcov].
Qed.

Lemma buildQGL_settled frames :
  builds_settled AST (buildQGL eosio_types AST object_type field_config frames).
Proof.
  induction frames as [|frames IH]; intros fields TYPES TYPES' made; simpl; [done|].
  destruct fields as [fs|]; [|done].
  intros Hloop Hs.
  destruct (buildQGL_loop_settled _ _ _ _ _ _ IH Hloop Hs) as (Hs' & Hsub & Hcov).
  split; [done|]. split; [done|]. by exists fs.
Qed.

(** What a settled cache and covered roots say of the reachable types. *)
Lemma settled_well_founded (TYPES : type_cache codec) roots :
  settled AST TYPES →
  (∀ T, T ∈ roots → ∃ fs, AST !! T = Some fs ∧ covered fs TYPES) →
  well_founded_from AST roots.
Proof.
  intros [rank Hrank] Hroots.
  assert (∀ T, reachable AST roots T → T ∈ roots ∨ T ∈ dom TYPES) as Hreach.
  { intros T HT. induction HT as [T HT|S T HS IH (fs & f & Hfs & Hin & Hobj & <-)];
      [by left|right].
    destruct IH as [Hroot|Hdom].
    - destruct (Hroots S Hroot) as (fs' & Hfs' & Hcov). simplify_eq. by apply Hcov.
    - destruct (Hrank S Hdom) as (fs' & Hfs' & Hf). simplify_eq. by apply Hf. }
  split.
  - intros T [Hroot|Hdom]%Hreach.
    + destruct (Hroots T Hroot) as (fs & -> & _). by eexists.
    + destruct (Hrank T Hdom) as (fs & -> & _). by eexists.
  - set (top := max_list (rank <$> elements (dom TYPES))).
    assert (∀ V, V ∈ dom TYPES → (rank V ≤ top)%nat) as Htop.
    { intros V HV. apply max_list_elem_of_le, list_elem_of_fmap_2.
      by apply elem_of_elements. }
    exists (λ V, if decide (V ∈ dom TYPES) then rank V else S top).
    intros S T HS (fs & f & Hfs & Hin & Hobj & <-).
    destruct (decide (S ∈ dom TYPES)) as [Hdom|Hout].
    + destruct (Hrank S Hdom) as (fs' & Hfs' & Hf). simplify_eq.
      destruct (Hf f Hin Hobj) as [Hd Hr]. by rewrite decide_True.
    + destruct (Hreach S HS) as [Hroot|Hdom]; [|done].
      destruct (Hroots S Hroot) as (fs' & Hfs' & Hcov). simplify_eq.
      pose proof (Hcov f Hin Hobj) as Hd. rewrite decide_True by done.
      specialize (Htop _ Hd). lia.
Qed.

Lemma settled_empty : settled AST (∅ : type_cache codec).
Proof.
  exists (λ _, 0). intros U HU. rewrite dom_empty_L in HU.
  by apply elem_of_empty in HU.
Qed.
End BuilderProperties.

(** ** The loops over tables and actions *)

Section LoopProperties.
Context {codec : Type} (eosio_types : gmap string codec).
Context (plain_text : string → string) (AST : schema).

Lemma covered_mono (fs : list AstField.t) (TYPES TYPES' : type_cache codec) :
  dom TYPES ⊆ dom TYPES' → covered fs TYPES → covered fs TYPES'.
Proof. intros Hsub Hcov f Hin Hobj. apply Hsub. by apply Hcov. Qed.

Lemma tables_loop_settled frames account tables (GQL_TYPES : type_cache codec)
    queryTypes query_fields made :
  tables_loop eosio_types frames AST account tables GQL_TYPES queryTypes query_fields
  = Normal made →
  settled AST GQL_TYPES →
  (∀ T, is_Some (queryTypes !! T) → ∃ fs, AST !! T = Some fs ∧ covered fs GQL_TYPES) →
  ∃ TYPES : type_cache codec,
    dom GQL_TYPES ⊆ dom TYPES
    ∧ settled AST TYPES
    ∧ ∀ t, t ∈ tables → ∃ fs, AST !! Table.type t = Some fs ∧ covered fs TYPES.
Proof.
  revert GQL_TYPES queryTypes query_fields.
  induction tables as [|table rest IH]; intros GQL_TYPES queryTypes query_fields; simpl.
  - intros _ Hs _. exists GQL_TYPES. split; [done|]. split; [done|].
    by intros t ?%elem_of_nil.
  - destruct (queryTypes !! Table.type table) as [q|] eqn:Hq.
    + intros Hloop Hs Hdone.
      destruct (IH _ _ _ Hloop Hs Hdone) as (TYPES & Hsub & Hs' & Hrest).
      exists TYPES. split; [done|]. split; [done|].
      intros t [->|Hin]%elem_of_cons; [|by apply Hrest].
      destruct (Hdone (Table.type table)) as (fs & Hfs & Hcov); [by eexists|].
      exists fs. split; [done|]. by eapply covered_mono.
    + destruct (buildQGL _ _ _ _ _ _ _) as [TYPES1 [fields|e]] eqn:Hb; [|done].
      intros Hloop Hs Hdone.
      destruct (buildQGL_settled _ _ _ _ _ _ _ _ _ Hb Hs) as (Hs1 & Hsub1 & fs & Hfs & Hcov1).
      destruct (IH _ _ _ Hloop Hs1) as (TYPES & Hsub & Hs' & Hrest).
      { intros T. rewrite lookup_insert. case_decide as HT.
        - subst T. intros _. by exists fs.
        - intros (fs' & Hfs' & Hcov')%Hdone. exists fs'. split; [done|].
          by eapply covered_mono. }
      exists TYPES. split; [by etrans|]. split; [done|].
      intros t [->|Hin]%elem_of_cons; [|by apply Hrest].
      exists fs. split; [done|]. by eapply covered_mono.
Qed.

Lemma actions_loop_settled frames account actions (GQL_MTYPES : type_cache codec)
    mutationTypes mutation_fields made :
  actions_loop eosio_types plain_text frames AST account actions GQL_MTYPES
    mutationTypes mutation_fields = Normal made →
  settled AST GQL_MTYPES →
  (∀ T, is_Some (mutationTypes !! T) → ∃ fs, AST !! T = Some fs ∧ covered fs GQL_MTYPES) →
  ∃ TYPES : type_cache codec,
    dom GQL_MTYPES ⊆ dom TYPES
    ∧ settled AST TYPES
    ∧ ∀ a, a ∈ actions → ∃ fs, AST !! Action.type a = Some fs ∧ covered fs TYPES.
Proof.
  revert GQL_MTYPES mutationTypes mutation_fields.
  induction actions as [|action rest IH]; intros GQL_MTYPES mutationTypes mutation_fields;
    simpl.
  - intros _ Hs _. exists GQL_MTYPES. split; [done|]. split; [done|].
    by intros t ?%elem_of_nil.
  - destruct (mutationTypes !! Action.type action) as [q|] eqn:Hq.
    + intros Hloop Hs Hdone.
      destruct (IH _ _ _ Hloop Hs Hdone) as (TYPES & Hsub & Hs' & Hrest).
      exists TYPES. split; [done|]. split; [done|].
      intros t [->|Hin]%elem_of_cons; [|by apply Hrest].
      destruct (Hdone (Action.type action)) as (fs & Hfs & Hcov); [by eexists|].
      exists fs. split; [done|]. by eapply covered_mono.
    + destruct (buildQGL _ _ _ _ _ _ _) as [TYPES1 [fields|e]] eqn:Hb; [|done].
      intros Hloop Hs Hdone.
      destruct (buildQGL_settled _ _ _ _ _ _ _ _ _ Hb Hs) as (Hs1 & Hsub1 & fs & Hfs & Hcov1).
      destruct (IH _ _ _ Hloop Hs1) as (TYPES & Hsub & Hs' & Hrest).
      { intros T. rewrite lookup_insert. case_decide as HT.
        - subst T. intros _. by exists fs.
        - intros (fs' & Hfs' & Hcov')%Hdone. exists fs'. split; [done|].
          by eapply covered_mono. }
      exists TYPES. split; [by etrans|]. split; [done|].
      intros t [->|Hin]%elem_of_cons; [|by apply Hrest].
      exists fs. split; [done|]. by eapply covered_mono.
Qed.

Lemma get_graphql_fields_Normal frames tables actions account made :
  get_graphql_fields_from_AST eosio_types plain_text frames AST tables actions account
  = Normal made →
  ∃ ts acts,
    tables = Some ts ∧ actions = Some acts
    ∧ tables_loop eosio_types frames AST (replace_dots account +:+ "_") ts ∅ ∅ ∅
      = Normal (Fields.query_fields made)
    ∧ actions_loop eosio_types plain_text frames AST (replace_dots account +:+ "_")
        acts ∅ ∅ ∅ = Normal (Fields.mutation_fields made).
Proof.
  unfold get_graphql_fields_from_AST.
  destruct tables as [ts|]; [|done].
  destruct (tables_loop _ _ _ _ _ _ _ _) as [qf|] eqn:Hq; unfold_bind; [|done].
  destruct actions as [acts|]; [|done].
  destruct (actions_loop _ _ _ _ _ _ _ _ _) as [mf|] eqn:Hm; [|done].
  intros [= <-]. by exists ts, acts.
Qed.

Lemma get_graphql_fields_well_founded frames tables actions account made :
  get_graphql_fields_from_AST eosio_types plain_text frames AST tables actions account
  = Normal made →
  well_founded_from AST (Table.type <$> default [] tables)
  ∧ well_founded_from AST (Action.type <$> default [] actions).
Proof.
  intros (ts & acts & -> & -> & Hq & Hm)%get_graphql_fields_Normal. simpl. split.
  - destruct (tables_loop_settled _ _ _ _ _ _ _ Hq (settled_empty AST))
      as (TYPES & _ & Hs & Hroots).
    { intros T [q Hq']. by rewrite lookup_empty in Hq'. }
    apply (settled_well_founded AST TYPES); [done|].
    intros T (t & -> & Hin)%list_elem_of_fmap. by apply Hroots.
  - destruct (actions_loop_settled _ _ _ _ _ _ _ Hm (settled_empty AST))
      as (TYPES & _ & Hs & Hroots).
    { intros T [q Hq']. by rewrite lookup_empty in Hq'. }
    apply (settled_well_founded AST TYPES); [done|].
    intros T (t & -> & Hin)%list_elem_of_fmap. by apply Hroots.
Qed.

Lemma reachable_trans roots T S :
  reachable AST roots T → reachable AST [T] S → reachable AST roots S.
Proof.
  intros HT HS. induction HS as [S HS|S' S HS' IH Hf].
  - apply list_elem_of_singleton in HS. by subst S.
  - by eapply reachable_field.
Qed.

Lemma well_founded_no_cycle roots T S :
  well_founded_from AST roots →
  reachable AST roots T → reachable AST [T] S → object_field AST S T → False.
Proof.
  intros [_ [rank Hrank]] HT HS Hback.
  assert ((rank S ≤ rank T)%nat) as Hle.
  { clear Hback. induction HS as [S HS|S' S HS' IH Hf].
    - apply list_elem_of_singleton in HS. by subst S.
    - pose proof (Hrank S' S (reachable_trans _ _ _ HT HS') Hf). lia. }
  pose proof (Hrank S T (reachable_trans _ _ _ HT HS) Hback). lia.
Qed.

(** X13: on types that are not names of [Object.prototype], when
    [get_graphql_fields_from_AST] returns, the types it has built form a
    well-founded part of the schema: every type reached from the type of a
    table, and every type reached from the type of an action, through
    fields that are objects, is a key of the schema, and none is reached
    from itself. *)
Theorem fields_need_well_founded_types frames tables actions account made :
  ordinary_types AST (default [] tables) (default [] actions) = true →
  get_graphql_fields_from_AST eosio_types plain_text frames AST tables actions account
  = Normal made →
  well_founded_from AST (Table.type <$> default [] tables)
  ∧ well_founded_from AST (Action.type <$> default [] actions).
Proof. intros _. apply get_graphql_fields_well_founded. Qed.

(** X14: on types that are not names of [Object.prototype],
    [get_graphql_fields_from_AST] throws, whatever the number of call
    frames, as soon as a type reached from the type of a table or of an
    action has no entry in the schema (the type of the table itself, or
    that of an object field further down), or is reached from itself
    through object fields (a struct with a field of its own type, or a
    longer loop). *)
Theorem unbuildable_type_throws frames tables actions account T :
  ordinary_types AST (default [] tables) (default [] actions) = true →
  reachable AST (Table.type <$> default [] tables) T
  ∨ reachable AST (Action.type <$> default [] actions) T →
  AST !! T = None ∨ (∃ S, reachable AST [T] S ∧ object_field AST S T) →
  ∃ e, get_graphql_fields_from_AST eosio_types plain_text frames AST tables actions
         account = Throw e.
Proof.
  intros _ Hreach Hbad.
  destruct (get_graphql_fields_from_AST _ _ _ _ _ _ _) as [made|e] eqn:Hres;
    [|by eexists].
  exfalso. apply get_graphql_fields_well_founded in Hres as [Hq Hm].
  assert (∃ roots, well_founded_from AST roots ∧ reachable AST roots T)
    as (roots & Hwf & HT).
  { destruct Hreach; eauto. }
  destruct Hbad as [Hnone|(S & HS & Hback)].
  - destruct Hwf as [Hkeys _]. destruct (Hkeys T HT) as [fs Hfs]. congruence.
  - by eapply well_founded_no_cycle.
Qed.
End LoopProperties.

(** ** The GraphQL type of a field *)

Section WrapProperties.
Context {codec : Type} (eosio_types : gmap string codec).

Lemma nullable_Wrap (base : gql_type codec) info :
  named_type base = true → nullable (Wrap base info) = Info.optional info.
Proof.
  intros Hbase. unfold Wrap.
  destruct (Info.optional info); [|done]. destruct (Info.list info); [done|].
  by destruct base.
Qed.

Lemma nullable_part_Wrap (base : gql_type codec) info :
  named_type base = true →
  nullable_part (Wrap base info) = if Info.list info then GraphQLList base else base.
Proof.
  intros Hbase. unfold Wrap.
  destruct (Info.optional info); [|done]. destruct (Info.list info); [done|].
  by destruct base.
Qed.

(** X12: the GraphQL type that [Wrap] gives to a field declaration, from a
    base type that is not itself a wrapper, is read off the raw type
    string: it is nullable exactly when the string contains [?] or [$];
    it is a list of the base type, with nullable elements, exactly when
    the string contains [[]], and the base type itself otherwise. *)
Theorem wrap_of_field (base : gql_type codec) (field : Field.t) :
  named_type base = true →
  let t := Wrap base (AstField._info (field_ast eosio_types field)) in
  let raw := Field.type field in
  (nullable t = true ↔ contains "?" raw ∨ contains "$" raw)
  ∧ (element_type t = Some base ↔ contains "[]" raw)
  ∧ (nullable_part t = base ↔ ¬ contains "[]" raw).
Proof.
  intros Hbase. simpl. unfold element_type.
  rewrite nullable_Wrap, nullable_part_Wrap by done. simpl.
  rewrite <- has_brackets_contains, <- !has_char_contains, orb_true_iff.
  split; [tauto|].
  destruct (has_brackets (Field.type field)).
  - split; [done|]. split; [intros Heq|by intros []].
    exfalso. clear -Heq Hbase. induction base; try done.
  - split.
    + split; [|done]. by destruct base.
    + split; [by intros _ ?|done].
Qed.
End WrapProperties.

Lemma wrap_of_field_witness :
  let t := Wrap (registry_value (sample_types !! "asset"))
             (AstField._info (field_ast sample_types (Field.mk "balances" "asset[]$"))) in
  (nullable t = true ↔ contains "?" "asset[]$" ∨ contains "$" "asset[]$")
  ∧ (element_type t = Some (registry_value (sample_types !! "asset"))
     ↔ contains "[]" "asset[]$")
  ∧ (nullable_part t = registry_value (sample_types !! "asset")
     ↔ ¬ contains "[]" "asset[]$").
Proof.
  apply (wrap_of_field sample_types (registry_value (sample_types !! "asset"))
           (Field.mk "balances" "asset[]$")).
  reflexivity.
Defined.

(** ** The field maps that [buildQGL] returns *)

Section BuilderShape.
Context {codec : Type} (eosio_types : gmap string codec) (AST : schema).
Context (object_type : string → field_map codec → gql_type codec).
Context (field_config : AstField.t → gql_type codec → FieldConfig.t (gql_type codec)).
Hypothesis object_type_named : ∀ T nested, named_type (object_type T nested) = true.

Lemma cache_named_insert (TYPES : type_cache codec) T t :
  cache_named TYPES → named_type t = true → cache_named (<[T := t]> TYPES).
Proof.
  intros Hc Ht U u. rewrite lookup_insert. case_decide; [|by apply Hc].
  by intros [= <-].
Qed.

Lemma buildQGL_loop_shape build fields acc TYPES TYPES' made :
  keeps_named build →
  buildQGL_loop eosio_types AST object_type field_config build fields acc TYPES
  = (TYPES', Normal made) →
  cache_named TYPES →
  cache_named TYPES'
  ∧ ∀ n, (is_Some (made !! n) ↔ is_Some (acc !! n) ∨ n ∈ AstField.name <$> fields)
         ∧ ∀ cfg, made !! n = Some cfg → acc !! n = Some cfg ∨ config_of field_config fields n cfg.
Proof.
  intros Hbuild. revert acc TYPES.
  induction fields as [|field rest IH]; intros acc TYPES; simpl.
  - intros [= <- <-] Hc. split; [done|]. intros n. split; [|by left].
    split; [by left|]. intros [?|?%elem_of_nil]; done.
  - assert (∀ base TYPES1,
              named_type base = true → cache_named TYPES1 →
              buildQGL_loop eosio_types AST object_type field_config build rest
                (<[AstField.name field :=
                     field_config field (Wrap base (AstField._info field))]> acc) TYPES1
              = (TYPES', Normal made) →
              cache_named TYPES'
              ∧ ∀ n, (is_Some (made !! n)
                      ↔ is_Some (acc !! n) ∨ n ∈ AstField.name field :: (AstField.name <$> rest))
                     ∧ ∀ cfg, made !! n = Some cfg →
                         acc !! n = Some cfg ∨ config_of field_config (field :: rest) n cfg) as Hstep.
    { intros base TYPES1 Hbase Hc1 Hloop.
      destruct (IH _ _ Hloop Hc1) as [Hc' Hmade]. split; [done|].
      intros n. destruct (Hmade n) as [Hkeys Hcfg]. split.
      - rewrite Hkeys, lookup_insert, elem_of_cons. case_decide as Hn.
        + subst n. split; [intros _; right; by left|intros _; left; by eexists].
        + split; [intros [?|?]; [by left|right; by right]|].
          intros [?|[?|?]]; [by left|congruence|by right].
      - intros cfg [Hacc|(f & b & Hin & Hname & Hb & ->)]%Hcfg.
        + rewrite lookup_insert in Hacc. case_decide as Hn; [|by left].
          injection Hacc as <-. right. exists field, base.
          split; [by left|done].
        + right. exists f, b. split; [by right|done]. }
    destruct (Info.object (AstField._info field)).
    + destruct (TYPES !! AstField.type field) as [cached|] eqn:Hcached.
      * intros Hloop Hc. eapply Hstep; [|done..]. by eapply Hc.
      * destruct (build (AST !! AstField.type field) TYPES) as [TYPES1 [nested|e]] eqn:Hb;
          [|done].
        intros Hloop Hc. eapply Hstep; [apply object_type_named| |done].
        apply cache_named_insert; [|apply object_type_named]. by eapply Hbuild.
    + intros Hloop Hc. by eapply (Hstep (registry_value _)).
Qed.

Lemma buildQGL_keeps_named frames :
  keeps_named (buildQGL eosio_types AST object_type field_config frames).
Proof.
  induction frames as [|frames IH]; intros fields TYPES TYPES' made; simpl; [done|].
  destruct fields as [fs|]; [|done]. intros Hloop Hc.
  by destruct (buildQGL_loop_shape _ _ _ _ _ _ IH Hloop Hc).
Qed.

Lemma buildQGL_shape frames fields TYPES TYPES' made :
  buildQGL eosio_types AST object_type field_config frames fields TYPES
  = (TYPES', Normal made) →
  cache_named TYPES →
  cache_named TYPES'
  ∧ ∃ fs, fields = Some fs
          ∧ ∀ n, (is_Some (made !! n) ↔ n ∈ AstField.name <$> fs)
                 ∧ ∀ cfg, made !! n = Some cfg → config_of field_config fs n cfg.
Proof.
  destruct frames as [|frames]; simpl; [done|].
  destruct fields as [fs|]; [|done]. intros Hloop Hc.
  destruct (buildQGL_loop_shape _ _ _ _ _ _ (buildQGL_keeps_named frames) Hloop Hc)
    as [Hc' Hmade].
  split; [done|]. exists fs. split; [done|]. intros n.
  destruct (Hmade n) as [Hkeys Hcfg]. split.
  - rewrite Hkeys, lookup_empty. split; [intros [[? ?]|?]; done|by right].
  - intros cfg [Hacc|?]%Hcfg; [by rewrite lookup_empty in Hacc|done].
Qed.
End BuilderShape.

(** ** The query and mutation fields *)

Section FieldsShape.
Context {codec : Type} (eosio_types : gmap string codec).
Context (plain_text : string → string) (AST : schema).

Lemma tables_loop_shape frames account tables (GQL_TYPES : type_cache codec)
    queryTypes query_fields made :
  tables_loop eosio_types frames AST account tables GQL_TYPES queryTypes query_fields
  = Normal made →
  cache_named GQL_TYPES →
  (∀ T q, queryTypes !! T = Some q → query_field_of AST account T q) →
  ∀ k, (is_Some (made !! k)
        ↔ is_Some (query_fields !! k) ∨ k ∈ (λ t, replace_dots (Table.name t)) <$> tables)
       ∧ ∀ q, made !! k = Some q →
           query_fields !! k = Some q
           ∨ ∃ t, t ∈ tables ∧ replace_dots (Table.name t) = k
                  ∧ query_field_of AST account (Table.type t) q.
Proof.
  revert GQL_TYPES queryTypes query_fields.
  induction tables as [|table rest IH]; intros GQL_TYPES queryTypes query_fields; simpl.
  - intros [= <-] _ _ k. split; [|by left].
    split; [by left|]. intros [?|?%elem_of_nil]; done.
  - assert (∀ TYPES1 qT1 q1,
              cache_named TYPES1 →
              (∀ T q, qT1 !! T = Some q → query_field_of AST account T q) →
              query_field_of AST account (Table.type table) q1 →
              tables_loop eosio_types frames AST account rest TYPES1 qT1
                (<[replace_dots (Table.name table) := q1]> query_fields) = Normal made →
              ∀ k, (is_Some (made !! k)
                    ↔ is_Some (query_fields !! k)
                      ∨ k ∈ replace_dots (Table.name table)
                            :: ((λ t, replace_dots (Table.name t)) <$> rest))
                   ∧ ∀ q, made !! k = Some q →
                       query_fields !! k = Some q
                       ∨ ∃ t, t ∈ table :: rest ∧ replace_dots (Table.name t) = k
                              ∧ query_field_of AST account (Table.type t) q) as Hstep.
    { intros TYPES1 qT1 q1 Hc1 HqT1 Hq1 Hloop k.
      destruct (IH _ _ _ Hloop Hc1 HqT1 k) as [Hkeys Hval]. split.
      - rewrite Hkeys, lookup_insert, elem_of_cons. case_decide as Hk.
        + subst k. split; [intros _; right; by left|intros _; left; by eexists].
        + split; [intros [?|?]; [by left|right; by right]|].
          intros [?|[?|?]]; [by left|congruence|by right].
      - intros q [Hq|(t & Hin & Hname & Hof)]%Hval.
        + rewrite lookup_insert in Hq. case_decide as Hk; [|by left].
          injection Hq as <-. right. exists table. split; [by left|done].
        + right. exists t. split; [by right|done]. }
    destruct (queryTypes !! Table.type table) as [q|] eqn:Hq.
    + intros Hloop Hc HqT. eapply Hstep; [done..| |done]. by apply HqT.
    + destruct (buildQGL _ _ _ _ _ _ _) as [TYPES1 [fields|e]] eqn:Hb; [|done].
      intros Hloop Hc HqT.
      destruct (buildQGL_shape eosio_types AST
                  (λ type, GraphQLObjectType (account +:+ type)) query_field_config
                  (λ _ _, eq_refl) _ _ _ _ _ Hb Hc)
        as (Hc1 & fs & Hfs & Hfields).
      assert (query_field_of AST account (Table.type table)
                (QueryField.mk
                   (GraphQLList
                      (GraphQLObjectType (account +:+ Table.type table +:+ "_query") fields))
                   {[ "arg" := ("argument_type", imported_type query_argument_fields) ]}
                   query_resolver)) as Hof.
      { by exists fs, fields. }
      eapply Hstep; [done| |done|done].
      intros T q'. rewrite lookup_insert. case_decide as HT; [|by apply HqT].
      subst T. by intros [= <-].
Qed.

Lemma mutation_field_of_mono account actions actions' T (m : MutationField.t codec) :
  (∀ a, a ∈ actions → a ∈ actions') →
  mutation_field_of AST plain_text account actions T m →
  mutation_field_of AST plain_text account actions' T m.
Proof.
  intros Hsub (fs & fields & a & Hfs & Ha & HT & Hm & Hfields).
  exists fs, fields, a. split; [done|]. split; [by apply Hsub|done].
Qed.

Lemma actions_loop_shape frames account all actions (GQL_MTYPES : type_cache codec)
    mutationTypes mutation_fields made :
  actions_loop eosio_types plain_text frames AST account actions GQL_MTYPES
    mutationTypes mutation_fields = Normal made →
  (∀ a, a ∈ actions → a ∈ all) →
  cache_named GQL_MTYPES →
  (∀ T m, mutationTypes !! T = Some m → mutation_field_of AST plain_text account all T m) →
  ∀ k, (is_Some (made !! k)
        ↔ is_Some (mutation_fields !! k)
          ∨ k ∈ (λ a, replace_dots (Action.name a)) <$> actions)
       ∧ ∀ m, made !! k = Some m →
           mutation_fields !! k = Some m
           ∨ ∃ a, a ∈ actions ∧ replace_dots (Action.name a) = k
                  ∧ mutation_field_of AST plain_text account all (Action.type a) m.
Proof.
  revert GQL_MTYPES mutationTypes mutation_fields.
  induction actions as [|action rest IH]; intros GQL_MTYPES mutationTypes mutation_fields;
    simpl.
  - intros [= <-] _ _ _ k. split; [|by left].
    split; [by left|]. intros [?|?%elem_of_nil]; done.
  - intros Hloop Hall.
    assert (∀ a, a ∈ rest → a ∈ all) as Hrest by (intros a Ha; apply Hall; by right).
    assert (∀ TYPES1 mT1 m1,
              cache_named TYPES1 →
              (∀ T m, mT1 !! T = Some m → mutation_field_of AST plain_text account all T m) →
              mutation_field_of AST plain_text account all (Action.type action) m1 →
              actions_loop eosio_types plain_text frames AST account rest TYPES1 mT1
                (<[replace_dots (Action.name action) := m1]> mutation_fields) = Normal made →
              ∀ k, (is_Some (made !! k)
                    ↔ is_Some (mutation_fields !! k)
                      ∨ k ∈ replace_dots (Action.name action)
                            :: ((λ a, replace_dots (Action.name a)) <$> rest))
                   ∧ ∀ m, made !! k = Some m →
                       mutation_fields !! k = Some m
                       ∨ ∃ a, a ∈ action :: rest ∧ replace_dots (Action.name a) = k
                              ∧ mutation_field_of AST plain_text account all (Action.type a) m) as Hstep.
    { intros TYPES1 mT1 m1 Hc1 HmT1 Hm1 Hloop1 k.
      destruct (IH _ _ _ Hloop1 Hrest Hc1 HmT1 k) as [Hkeys Hval]. split.
      - rewrite Hkeys, lookup_insert, elem_of_cons. case_decide as Hk.
        + subst k. split; [intros _; right; by left|intros _; left; by eexists].
        + split; [intros [?|?]; [by left|right; by right]|].
          intros [?|[?|?]]; [by left|congruence|by right].
      - intros m [Hm|(a & Hin & Hname & Hof)]%Hval.
        + rewrite lookup_insert in Hm. case_decide as Hk; [|by left].
          injection Hm as <-. right. exists action. split; [by left|done].
        + right. exists a. split; [by right|done]. }
    revert Hloop.
    destruct (mutationTypes !! Action.type action) as [m|] eqn:Hm.
    + intros Hloop Hc HmT. eapply Hstep; [done..| |done]. by apply HmT.
    + destruct (buildQGL _ _ _ _ _ _ _) as [TYPES1 [fields|e]] eqn:Hb; [|done].
      intros Hloop Hc HmT.
      destruct (buildQGL_shape eosio_types AST
                  (λ type, GraphQLInputObjectType (account +:+ "input_" +:+ type) None)
                  mutation_field_config (λ _ _, eq_refl) _ _ _ _ _ Hb Hc)
        as (Hc1 & fs & Hfs & Hfields).
      assert (mutation_field_of AST plain_text account all (Action.type action)
                (MutationField.mk
                   (GraphQLInputObjectType (account +:+ Action.type action)
                      (Some (plain_text (default "" (Action.ricardian_contract action))))
                      (<["authorization" := authorization_field]> fields))))
        as Hof.
      { exists fs, fields, action. split; [done|]. split; [apply Hall; by left|done]. }
      eapply Hstep; [done| |done|done].
      intros T m'. rewrite lookup_insert. case_decide as HT; [|by apply HmT].
      subst T. by intros [= <-].
Qed.
End FieldsShape.

Section FieldsTheorems.
Context {codec : Type} (eosio_types : gmap string codec).
Context (plain_text : string → string) (AST : schema).

(** X15: on types that are not names of [Object.prototype] and tables of
    which none is named [__proto__], when [get_graphql_fields_from_AST]
    returns, its query fields are keyed by the names of the tables with
    every dot replaced by an underscore.  Each is the field of a table of that name: a list of an
    object type named after the account (dots replaced), the type of the
    table and [_query], with one GraphQL field per field name of the
    schema entry of the table type; the type of such a field is [Wrap]
    applied to a base type that is not a wrapper and to the flags of a
    descriptor of that name, and its resolver captures that descriptor. *)
Theorem query_fields_follow_tables frames tables actions account made k :
  ordinary_types AST (default [] tables) (default [] actions) = true →
  forallb (λ t, adds_property (replace_dots (Table.name t))) (default [] tables) = true →
  get_graphql_fields_from_AST eosio_types plain_text frames AST tables actions account
  = Normal made →
  (is_Some (Fields.query_fields made !! k)
   ↔ k ∈ (λ t, replace_dots (Table.name t)) <$> default [] tables)
  ∧ ∀ q, Fields.query_fields made !! k = Some q →
      ∃ t fs fields,
        t ∈ default [] tables ∧ replace_dots (Table.name t) = k
        ∧ AST !! Table.type t = Some fs
        ∧ QueryField.type q
          = GraphQLList
              (GraphQLObjectType
                 ((replace_dots account +:+ "_") +:+ Table.type t +:+ "_query") fields)
        ∧ ∀ n, (is_Some (fields !! n) ↔ n ∈ AstField.name <$> fs)
               ∧ ∀ cfg, fields !! n = Some cfg →
                   ∃ f base,
                     f ∈ fs ∧ AstField.name f = n ∧ named_type base = true
                     ∧ FieldConfig.type cfg = Wrap base (AstField._info f)
                     ∧ FieldConfig.resolve cfg
                       = Some (field_resolver (AstField.type f) (AstField._info f)).
Proof.
  intros _ _ (ts & acts & -> & -> & Hq & _)%get_graphql_fields_Normal. simpl.
  destruct (tables_loop_shape eosio_types AST _ _ _ _ _ _ _ Hq) with (k := k)
    as [Hkeys Hval].
  { intros T t. by rewrite lookup_empty. }
  { intros T q. by rewrite lookup_empty. }
  split.
  - rewrite Hkeys, lookup_empty. split; [intros [[? ?]|?]; done|by right].
  - intros q [Hq'|(t & Hin & Hname & fs & fields & Hfs & -> & Hfields)]%Hval;
      [by rewrite lookup_empty in Hq'|].
    exists t, fs, fields. split; [done|]. split; [done|]. split; [done|].
    split; [done|].
    intros n. destruct (Hfields n) as [Hk Hcfg]. split; [done|].
    intros cfg (f & base & Hf & Hn & Hb & ->)%Hcfg. by exists f, base.
Qed.

(** X16: on types that are not names of [Object.prototype] and actions of
    which none is named [__proto__], when [get_graphql_fields_from_AST]
    returns, its mutation fields are keyed by the names of the actions
    with every dot replaced by an underscore.  Each is an input object type named after the account and
    the type of an action of that name, described by the ricardian
    contract of an action of that type, and it always has the field
    [authorization], a list of non-null authorizations, which takes the
    place of a field of that name in the schema entry; its other fields
    are the field names of the schema entry of the action type. *)
Theorem mutation_fields_carry_authorization frames tables actions account made k :
  ordinary_types AST (default [] tables) (default [] actions) = true →
  forallb (λ a, adds_property (replace_dots (Action.name a))) (default [] actions) = true →
  get_graphql_fields_from_AST eosio_types plain_text frames AST tables actions account
  = Normal made →
  (is_Some (Fields.mutation_fields made !! k)
   ↔ k ∈ (λ a, replace_dots (Action.name a)) <$> default [] actions)
  ∧ ∀ m, Fields.mutation_fields made !! k = Some m →
      ∃ a a' fs fields,
        a ∈ default [] actions ∧ replace_dots (Action.name a) = k
        ∧ a' ∈ default [] actions ∧ Action.type a' = Action.type a
        ∧ AST !! Action.type a = Some fs
        ∧ MutationField.type m
          = GraphQLInputObjectType ((replace_dots account +:+ "_") +:+ Action.type a)
              (Some (plain_text (default "" (Action.ricardian_contract a')))) fields
        ∧ fields !! "authorization"
          = Some (FieldConfig.mk
                    (GraphQLList (GraphQLNonNull (imported_type authorization_type)))
                    None (Some "Authorization to sign the transaction"))
        ∧ ∀ n, n ≠ "authorization" →
               (is_Some (fields !! n) ↔ n ∈ AstField.name <$> fs).
Proof.
  intros _ _ (ts & acts & -> & -> & _ & Hm)%get_graphql_fields_Normal. simpl.
  destruct (actions_loop_shape eosio_types plain_text AST _ _ acts _ _ _ _ _ Hm)
    with (k := k) as [Hkeys Hval].
  { done. }
  { intros T t. by rewrite lookup_empty. }
  { intros T q. by rewrite lookup_empty. }
  split.
  - rewrite Hkeys, lookup_empty. split; [intros [[? ?]|?]; done|by right].
  - intros m [Hm'|(a & Hin & Hname & fs & fields & a' & Hfs & Ha' & HT & -> & Hfields)]%Hval;
      [by rewrite lookup_empty in Hm'|].
    exists a, a', fs, (<["authorization" := authorization_field]> fields).
    split; [done|]. split; [done|]. split; [done|]. split; [done|]. split; [done|].
    split; [done|].
    split; [apply lookup_insert_eq|].
    intros n Hn. rewrite lookup_insert_ne by done. by destruct (Hfields n).
Qed.
End FieldsTheorems.

Lemma replace_dots_no_dot s : has_char "." (replace_dots s) = false.
Proof.
  induction s as [|a r IH]; simpl; [done|]. rewrite IH, orb_false_r.
  destruct (bool_decide (a = "."%char)) eqn:Ha; [done|]. exact Ha.
Qed.

Lemma fields_need_well_founded_types_witness :
  well_founded_from token_ast (Table.type <$> default [] (Some token_tables))
  ∧ well_founded_from token_ast (Action.type <$> default [] (Some token_actions)).
Proof.
  apply (fields_need_well_founded_types sample_types id token_ast 3
           (Some token_tables) (Some token_actions) "eosio.token"
           (default (Fields.mk ∅ ∅) (value_of
              (get_graphql_fields_from_AST sample_types id 3 token_ast
                 (Some token_tables) (Some token_actions) "eosio.token")))).
  - vm_compute. reflexivity.
  - vm_compute. reflexivity.
Defined.

Lemma unbuildable_type_throws_witness :
  (∃ e, get_graphql_fields_from_AST sample_types id 9 loose_ast
          (Some [Table.mk "accounts" "account"]) (Some []) "eosio.token" = Throw e)
  ∧ (∃ e, get_graphql_fields_from_AST sample_types id 9 node_ast
            (Some []) (Some [Action.mk "grow" "node" None]) "tree" = Throw e).
Proof.
  split.
  - apply (unbuildable_type_throws sample_types id loose_ast 9
             (Some [Table.mk "accounts" "account"]) (Some []) "eosio.token" "ghost").
    + vm_compute. reflexivity.
    + left. apply (reachable_field loose_ast _ "account" "ghost").
      * apply reachable_root. vm_compute. left.
      * eexists _, (AstField.mk "balance" "ghost" (Info.mk true false false false false)).
        split; [reflexivity|]. split; [right; left|]. split; reflexivity.
    + left. reflexivity.
  - apply (unbuildable_type_throws sample_types id node_ast 9
             (Some []) (Some [Action.mk "grow" "node" None]) "tree" "node").
    + vm_compute. reflexivity.
    + right. apply reachable_root. vm_compute. left.
    + right. exists "node". split; [apply reachable_root; left|].
      eexists _, (AstField.mk "children" "node" (Info.mk true false true false false)).
      split; [reflexivity|]. split; [right; left|]. split; reflexivity.
Defined.

Lemma query_fields_follow_tables_witness :
  let made := default (Fields.mk ∅ ∅) (value_of
                (get_graphql_fields_from_AST sample_types id 3 token_ast
                   (Some token_tables) (Some token_actions) "eosio.token")) in
  (is_Some (Fields.query_fields made !! "holders_v2")
   ↔ "holders_v2" ∈ (λ t, replace_dots (Table.name t)) <$> default [] (Some token_tables))
  ∧ ∀ q, Fields.query_fields made !! "holders_v2" = Some q →
      ∃ t fs fields,
        t ∈ default [] (Some token_tables) ∧ replace_dots (Table.name t) = "holders_v2"
        ∧ token_ast !! Table.type t = Some fs
        ∧ QueryField.type q
          = GraphQLList
              (GraphQLObjectType
                 ((replace_dots "eosio.token" +:+ "_") +:+ Table.type t +:+ "_query") fields)
        ∧ ∀ n, (is_Some (fields !! n) ↔ n ∈ AstField.name <$> fs)
               ∧ ∀ cfg, fields !! n = Some cfg →
                   ∃ f base,
                     f ∈ fs ∧ AstField.name f = n ∧ named_type base = true
                     ∧ FieldConfig.type cfg = Wrap base (AstField._info f)
                     ∧ FieldConfig.resolve cfg
                       = Some (field_resolver (AstField.type f) (AstField._info f)).
Proof.
  apply (query_fields_follow_tables sample_types id token_ast 3
           (Some token_tables) (Some token_actions) "eosio.token").
  - vm_compute. reflexivity.
  - vm_compute. reflexivity.
  - vm_compute. reflexivity.
Defined.

Lemma mutation_fields_carry_authorization_witness :
  let made := default (Fields.mk ∅ ∅) (value_of
                (get_graphql_fields_from_AST sample_types id 3 token_ast
                   (Some token_tables) (Some token_actions) "eosio.token")) in
  (is_Some (Fields.mutation_fields made !! "pay_out")
   ↔ "pay_out" ∈ (λ a, replace_dots (Action.name a)) <$> default [] (Some token_actions))
  ∧ ∀ m, Fields.mutation_fields made !! "pay_out" = Some m →
      ∃ a a' fs fields,
        a ∈ default [] (Some token_actions) ∧ replace_dots (Action.name a) = "pay_out"
        ∧ a' ∈ default [] (Some token_actions) ∧ Action.type a' = Action.type a
        ∧ token_ast !! Action.type a = Some fs
        ∧ MutationField.type m
          = GraphQLInputObjectType ((replace_dots "eosio.token" +:+ "_") +:+ Action.type a)
              (Some (id (default "" (Action.ricardian_contract a')))) fields
        ∧ fields !! "authorization"
          = Some (FieldConfig.mk
                    (GraphQLList (GraphQLNonNull (imported_type authorization_type)))
                    None (Some "Authorization to sign the transaction"))
        ∧ ∀ n, n ≠ "authorization" →
               (is_Some (fields !! n) ↔ n ∈ AstField.name <$> fs).
Proof.
  apply (mutation_fields_carry_authorization sample_types id token_ast 3
           (Some token_tables) (Some token_actions) "eosio.token").
  - vm_compute. reflexivity.
  - vm_compute. reflexivity.
  - vm_compute. reflexivity.
Defined.
